(** * goembed: the byte-to-Go-string-literal encoder and its generator

    Shallow embedding of [goembed.go] (package main) and proofs about the
    escaping writer [writer.Write] and the generator [main].

    Bytes are [Byte.byte]; a Go [[]byte] is a [list byte]; a Go [int] or
    [rune] is a [Z].  The underlying [io.Writer] is an interface, modelled
    by the class [Writer]: a state transformer that may report an error. *)

From Stdlib.Strings Require Import Byte String Ascii.
From Stdlib Require Import ZArith List Bool Lia.
Import ListNotations.
Local Open Scope Z_scope.

Set Implicit Arguments.

(** ** Bytes and text *)

Definition b2z (b : byte) : Z := Z.of_N (Byte.to_N b).

(** Go's conversion [byte(x)] of an integer: truncation to the low 8 bits. *)
Definition z2b (z : Z) : byte :=
  match Byte.of_N (Z.to_N (z mod 256)) with
  | Some b => b
  | None => x00
  end.

(** Source text without quote characters is written as a Rocq string;
    the quote, tab and newline characters are named. *)
Definition str (s : string) : list byte := list_byte_of_string s.
Definition quote : list byte := [x22].
Definition nl : list byte := [x0a].
Definition tab : list byte := [x09].

(** ** unicode/utf8 (Go standard library, used by the encoder)

    Transcribed from the library's table-driven [DecodeRune] and
    [EncodeRune]; the library is not part of this repository. *)
Module utf8.

Definition RuneError : Z := 0xFFFD.
Definition MaxRune : Z := 0x10FFFF.
Definition RuneSelf : Z := 0x80.

Definition surrogateMin : Z := 0xD800.
Definition surrogateMax : Z := 0xDFFF.

Definition maskx : Z := 0x3F.
Definition mask2 : Z := 0x1F.
Definition mask3 : Z := 0x0F.
Definition mask4 : Z := 0x07.

Definition t1 : Z := 0x00.
Definition tx : Z := 0x80.
Definition t2 : Z := 0xC0.
Definition t3 : Z := 0xE0.
Definition t4 : Z := 0xF0.

Definition rune1Max : Z := 0x7F.
Definition rune2Max : Z := 0x7FF.
Definition rune3Max : Z := 0xFFFF.

Definition locb : Z := 0x80.
Definition hicb : Z := 0xBF.

(** Information about the first byte of an encoding: the size in the low
    three bits, the index into [acceptRanges] in the high four. *)
Definition xx : Z := 0xF1.
Definition as_ : Z := 0xF0.
Definition s1 : Z := 0x02.
Definition s2 : Z := 0x13.
Definition s3 : Z := 0x03.
Definition s4 : Z := 0x23.
Definition s5 : Z := 0x34.
Definition s6 : Z := 0x04.
Definition s7 : Z := 0x44.

Definition first_table : list Z :=
  (*   1    2    3    4    5    6    7    8    9    A    B    C    D    E    F *)
  [as_; as_; as_; as_; as_; as_; as_; as_; as_; as_; as_; as_; as_; as_; as_; as_; (* 0x00-0x0F *)
   as_; as_; as_; as_; as_; as_; as_; as_; as_; as_; as_; as_; as_; as_; as_; as_; (* 0x10-0x1F *)
   as_; as_; as_; as_; as_; as_; as_; as_; as_; as_; as_; as_; as_; as_; as_; as_; (* 0x20-0x2F *)
   as_; as_; as_; as_; as_; as_; as_; as_; as_; as_; as_; as_; as_; as_; as_; as_; (* 0x30-0x3F *)
   as_; as_; as_; as_; as_; as_; as_; as_; as_; as_; as_; as_; as_; as_; as_; as_; (* 0x40-0x4F *)
   as_; as_; as_; as_; as_; as_; as_; as_; as_; as_; as_; as_; as_; as_; as_; as_; (* 0x50-0x5F *)
   as_; as_; as_; as_; as_; as_; as_; as_; as_; as_; as_; as_; as_; as_; as_; as_; (* 0x60-0x6F *)
   as_; as_; as_; as_; as_; as_; as_; as_; as_; as_; as_; as_; as_; as_; as_; as_; (* 0x70-0x7F *)
   xx; xx; xx; xx; xx; xx; xx; xx; xx; xx; xx; xx; xx; xx; xx; xx; (* 0x80-0x8F *)
   xx; xx; xx; xx; xx; xx; xx; xx; xx; xx; xx; xx; xx; xx; xx; xx; (* 0x90-0x9F *)
   xx; xx; xx; xx; xx; xx; xx; xx; xx; xx; xx; xx; xx; xx; xx; xx; (* 0xA0-0xAF *)
   xx; xx; xx; xx; xx; xx; xx; xx; xx; xx; xx; xx; xx; xx; xx; xx; (* 0xB0-0xBF *)
   xx; xx; s1; s1; s1; s1; s1; s1; s1; s1; s1; s1; s1; s1; s1; s1; (* 0xC0-0xCF *)
   s1; s1; s1; s1; s1; s1; s1; s1; s1; s1; s1; s1; s1; s1; s1; s1; (* 0xD0-0xDF *)
   s2; s3; s3; s3; s3; s3; s3; s3; s3; s3; s3; s3; s3; s4; s3; s3; (* 0xE0-0xEF *)
   s5; s6; s6; s6; s7; xx; xx; xx; xx; xx; xx; xx; xx; xx; xx; xx  (* 0xF0-0xFF *)
  ].

Definition first (b : byte) : Z := nth (Byte.to_nat b) first_table xx.

(** [acceptRanges]: the range of valid values for the second byte. *)
Record acceptRange := { lo : Z; hi : Z }.

Definition acceptRanges (i : Z) : acceptRange :=
  nth (Z.to_nat i)
      [ {| lo := locb; hi := hicb |};
        {| lo := 0xA0; hi := hicb |};
        {| lo := locb; hi := 0x9F |};
        {| lo := 0x90; hi := hicb |};
        {| lo := locb; hi := 0x8F |} ]
      {| lo := 0; hi := 0 |}.

(** Indexing [p[i]]; every use below is guarded by the length check. *)
Definition at_ (p : list byte) (i : nat) : Z := b2z (nth i p x00).

(** [DecodeRune p] returns the rune and its width in bytes;
    [(RuneError, 0)] on empty input and [(RuneError, 1)] on an invalid
    encoding.  The library folds the test [x == xx] of the first branch
    into a mask; it is written here as the test it simulates. *)
Definition DecodeRune (p : list byte) : Z * nat :=
  let n := Z.of_nat (length p) in
  if n <? 1 then (RuneError, 0%nat) else
  let p0 := at_ p 0 in
  let x := first (nth 0 p x00) in
  if as_ <=? x then
    ((if x =? xx then RuneError else p0), 1%nat)
  else
  let sz := Z.land x 7 in
  let accept := acceptRanges (Z.shiftr x 4) in
  if n <? sz then (RuneError, 1%nat) else
  let b1 := at_ p 1 in
  if (b1 <? lo accept) || (hi accept <? b1) then (RuneError, 1%nat) else
  if sz <=? 2 then
    (Z.lor (Z.shiftl (Z.land p0 mask2) 6) (Z.land b1 maskx), 2%nat)
  else
  let b2 := at_ p 2 in
  if (b2 <? locb) || (hicb <? b2) then (RuneError, 1%nat) else
  if sz <=? 3 then
    (Z.lor (Z.lor (Z.shiftl (Z.land p0 mask3) 12)
                  (Z.shiftl (Z.land b1 maskx) 6))
           (Z.land b2 maskx), 3%nat)
  else
  let b3 := at_ p 3 in
  if (b3 <? locb) || (hicb <? b3) then (RuneError, 1%nat) else
  (Z.lor (Z.lor (Z.lor (Z.shiftl (Z.land p0 mask4) 18)
                       (Z.shiftl (Z.land b1 maskx) 12))
                (Z.shiftl (Z.land b2 maskx) 6))
         (Z.land b3 maskx), 4%nat).

(** [EncodeRune]/[AppendRune]: the UTF-8 encoding of a rune; an invalid
    rune (negative, a surrogate half, above [MaxRune]) is encoded as
    [RuneError]. *)
Definition encode3 (r : Z) : list byte :=
  [ z2b (Z.lor t3 (Z.shiftr r 12));
    z2b (Z.lor tx (Z.land (Z.shiftr r 6) maskx));
    z2b (Z.lor tx (Z.land r maskx)) ].

Definition EncodeRune (r : Z) : list byte :=
  if (0 <=? r) && (r <=? rune1Max) then [z2b r]
  else if (0 <=? r) && (r <=? rune2Max) then
    [ z2b (Z.lor t2 (Z.shiftr r 6));
      z2b (Z.lor tx (Z.land r maskx)) ]
  else if (r <? 0) || (MaxRune <? r)
          || ((surrogateMin <=? r) && (r <=? surrogateMax)) then
    encode3 RuneError
  else if r <=? rune3Max then encode3 r
  else
    [ z2b (Z.lor t4 (Z.shiftr r 18));
      z2b (Z.lor tx (Z.land (Z.shiftr r 12) maskx));
      z2b (Z.lor tx (Z.land (Z.shiftr r 6) maskx));
      z2b (Z.lor tx (Z.land r maskx)) ].

(** [ValidRune]: the runes that have an encoding, that is the Unicode
    scalar values. *)
Definition ValidRune (r : Z) : bool :=
  if (0 <=? r) && (r <? surrogateMin) then true
  else if (surrogateMax <? r) && (r <=? MaxRune) then true
  else false.

End utf8.

(** ** io.Writer

    [wwrite w p] is [w.Write(p)]: the writer's next state, the number of
    bytes it reports written and its error, if any. *)
Class Writer (E W : Type) := wwrite : W -> list byte -> W * (Z * option E).

(** A writer that never fails and accumulates what it is given
    ([bytes.Buffer], or a standard output that accepts everything). *)
Definition Buffer := list byte.

#[export] Instance Buffer_Writer (E : Type) : Writer E Buffer :=
  fun buf p => (buf ++ p, (Z.of_nat (length p), None)).

(** A writer on which every write fails with the error [e], writing
    nothing (a full device, for example). *)
Inductive Broken (E : Type) := broken (e : E).

#[export] Instance Broken_Writer (E : Type) : Writer E (Broken E) :=
  fun w p => match w with broken e => (w, (0, Some e)) end.

(** A writer with room for [room] more bytes: a write that does not fit
    writes what fits and fails with [full] (a device that fills up). *)
Record Limited (E : Type) := {
  written : list byte;
  room : nat;
  full : E
}.

#[export] Instance Limited_Writer (E : Type) : Writer E (Limited E) :=
  fun w p =>
    if Nat.leb (length p) (room w) then
      ({| written := written w ++ p;
          room := room w - length p;
          full := full w |},
       (Z.of_nat (length p), None))
    else
      ({| written := written w ++ firstn (room w) p;
          room := 0;
          full := full w |},
       (Z.of_nat (room w), Some (full w))).

(** A writer that never fails and keeps every write apart, in the order
    of the calls: what the underlying writer of [Write] is called with. *)
Definition Recorder := list (list byte).

#[export] Instance Recorder_Writer (E : Type) : Writer E Recorder :=
  fun t p => (t ++ [p], (Z.of_nat (length p), None)).

(** ** Errors

    [is_EPIPE e] tells whether the error [e] is [syscall.EPIPE], the
    error of a write to a pipe that nobody reads any more. *)
Class Errno (E : Type) := is_EPIPE : E -> bool.

(** Errors by their names. *)
#[export] Instance string_Errno : Errno string :=
  fun e => String.eqb e "EPIPE".

(** A single error, and not [EPIPE]. *)
#[export] Instance unit_Errno : Errno unit := fun _ => false.

(** ** The escaping writer *)

Definition byteOrderMark : Z := 0xFEFF.

(** [fmt.Fprintf(w, `\x%02x`, b)]: two lower-case hexadecimal digits,
    padded with a zero. *)
Definition hexdigit (d : Z) : byte :=
  nth (Z.to_nat d)
      [x30; x31; x32; x33; x34; x35; x36; x37; x38; x39;
       x61; x62; x63; x64; x65; x66] x30.

Definition hex_escape (b : byte) : list byte :=
  [x5c; x78; hexdigit (b2z b / 16); hexdigit (b2z b mod 16)].

Section Write.

Context {E W : Type} `{Writer E W}.

(** [type writer struct { w io.Writer }] *)
Record writer := { w_ : W }.

(** The loop of [writer.Write]: [for err == nil && len(data) > 0 { ... }].
    One unit of [fuel] is one iteration; the result is the writer, the
    slice [data] and [err] when the loop is left. *)
Fixpoint Write_loop (fuel : nat) (w : W) (data : list byte) (err : option E)
  : W * list byte * option E :=
  match fuel with
  | O => (w, data, err)
  | S fuel' =>
    match err, data with
    | None, b :: tl =>
      match b with
      | x5c => (* case backslash *)
        let '(w', (_, err')) := wwrite w [x5c; x5c] in
        Write_loop fuel' w' tl err'
      | x22 => (* case double quote *)
        let '(w', (_, err')) := wwrite w [x5c; x22] in
        Write_loop fuel' w' tl err'
      | x0a => (* case newline *)
        let '(w', (_, err')) := wwrite w [x5c; x6e] in
        Write_loop fuel' w' tl err'
      | x00 => (* case NUL *)
        let '(w', (_, err')) := wwrite w [x5c; x78; x30; x30] in
        Write_loop fuel' w' tl err'
      | _ =>
        let '(r, size) := utf8.DecodeRune data in
        if negb (r =? utf8.RuneError) && negb (r =? byteOrderMark) then
          let '(w', (_, err')) := wwrite w (firstn size data) in
          Write_loop fuel' w' (skipn size data) err'
        else
          let '(w', (_, err')) := wwrite w (hex_escape b) in
          Write_loop fuel' w' tl err'
      end
    | _, _ => (w, data, err)
    end
  end.

(** [func (w *writer) Write(data []byte) (n int, err error)].  Every
    iteration removes at least one byte, so [len(data)] iterations are
    enough (lemma [Write_loop_done]). *)
Definition Write (w : writer) (data : list byte) : writer * (Z * option E) :=
  let n := Z.of_nat (length data) in
  let '(w', data', err) := Write_loop (length data) (w_ w) data None in
  ({| w_ := w' |}, (n - Z.of_nat (length data'), err)).

End Write.

Arguments writer W : clear implicits.

(** The escaping writer is itself an [io.Writer]. *)
#[export] Instance writer_Writer (E W : Type) `{Writer E W}
  : Writer E (writer W) := Write.

(** The text the encoder produces for [data] on a writer that accepts
    everything. *)
Definition encode (data : list byte) : list byte :=
  w_ (fst (Write (E := unit) {| w_ := ([] : Buffer) |} data)).

(** ** Go interpreted string literals

    The meaning of the text between the quotes of an interpreted string
    literal, after the Go language specification (String literals, Rune
    literals, Source code representation).  The body is UTF-8 source
    text: a newline or an unescaped double quote may not appear in it,
    and neither may a NUL character, a byte order mark or a byte sequence
    that is not UTF-8, which the compiler rejects.  [\ooo] and [\xhh]
    denote single bytes; [\u] and [\U] the UTF-8 encoding of a code
    point, which may be neither a surrogate half nor above 0x10FFFF; a
    single quote may not be escaped. *)
Module golit.

Definition hexval (c : byte) : option Z :=
  let v := b2z c in
  if (0x30 <=? v) && (v <=? 0x39) then Some (v - 0x30)
  else if (0x61 <=? v) && (v <=? 0x66) then Some (v - 0x61 + 10)
  else if (0x41 <=? v) && (v <=? 0x46) then Some (v - 0x41 + 10)
  else None.

Definition octval (c : byte) : option Z :=
  let v := b2z c in
  if (0x30 <=? v) && (v <=? 0x37) then Some (v - 0x30) else None.

(** Exactly [n] digits in the given base, most significant first. *)
Fixpoint number (digit : byte -> option Z) (base : Z) (n : nat) (acc : Z)
         (cs : list byte) : option (Z * list byte) :=
  match n with
  | O => Some (acc, cs)
  | S n' =>
    match cs with
    | [] => None
    | c :: cs' =>
      match digit c with
      | Some d => number digit base n' (acc * base + d) cs'
      | None => None
      end
    end
  end.

Definition code_point (n : nat) (cs : list byte)
  : option (list byte * list byte) :=
  match number hexval 16 n 0 cs with
  | Some (r, rest) =>
    if utf8.ValidRune r then Some (utf8.EncodeRune r, rest) else None
  | None => None
  end.

(** The escape sequence whose backslash has just been read: the bytes
    it denotes and the text after it. *)
Definition escape (t : list byte) : option (list byte * list byte) :=
  match t with
  | [] => None
  | c :: t' =>
    match c with
    | x61 => Some ([x07], t')   (* \a *)
    | x62 => Some ([x08], t')   (* \b *)
    | x66 => Some ([x0c], t')   (* \f *)
    | x6e => Some ([x0a], t')   (* \n *)
    | x72 => Some ([x0d], t')   (* \r *)
    | x74 => Some ([x09], t')   (* \t *)
    | x76 => Some ([x0b], t')   (* \v *)
    | x5c => Some ([x5c], t')   (* backslash *)
    | x22 => Some ([x22], t')   (* double quote *)
    | x78 =>                    (* \xhh *)
      match number hexval 16 2 0 t' with
      | Some (v, rest) => Some ([z2b v], rest)
      | None => None
      end
    | x75 => code_point 4 t'    (* \uhhhh *)
    | x55 => code_point 8 t'    (* \Uhhhhhhhh *)
    | _ =>                      (* \ooo *)
      match number octval 8 3 0 t with
      | Some (v, rest) => if v <=? 255 then Some ([z2b v], rest) else None
      | None => None
      end
    end
  end.

(** The value of the literal whose body is [s]; [None] when [s] is not a
    legal body.  Every step reads at least one byte of [s]. *)
Fixpoint unquote_loop (fuel : nat) (s : list byte) : option (list byte) :=
  match s with
  | [] => Some []
  | c :: t =>
    match fuel with
    | O => None
    | S fuel' =>
      match c with
      | x5c =>
        match escape t with
        | Some (v, rest) => option_map (app v) (unquote_loop fuel' rest)
        | None => None
        end
      | x22 | x0a | x00 => None
      | _ =>
        if b2z c <? utf8.RuneSelf then
          option_map (cons c) (unquote_loop fuel' t)
        else
          let '(r, width) := utf8.DecodeRune s in
          if (r =? utf8.RuneError) && (Nat.eqb width 1) then None
          else if r =? byteOrderMark then None
          else option_map (app (firstn width s))
                          (unquote_loop fuel' (skipn width s))
      end
    end
  end.

Definition unquote_body (s : list byte) : option (list byte) :=
  unquote_loop (length s) s.

End golit.

(** ** The generator: flags, process state and [main] *)

Record Flags := {
  packageFlag : list byte;   (* -package *)
  varFlag : list byte;       (* -var *)
  gzipFlag : bool            (* -gzip *)
}.

(** A parsed [text/template]: literal text and the action [{{.}}]. *)
Inductive Node := Text (t : list byte) | Dot.

(** The text of [gzipPrologue], cut at its two actions; the first piece
    is cut once more, into the import declaration and the head of
    [func init]. *)
Definition prologue_imports : list byte :=
  nl ++ str "import (" ++ nl
  ++ tab ++ quote ++ str "bytes" ++ quote ++ nl
  ++ tab ++ quote ++ str "compress/gzip" ++ quote ++ nl
  ++ tab ++ quote ++ str "io/ioutil" ++ quote ++ nl
  ++ str ")" ++ nl.

Definition prologue_init_head : list byte :=
  nl ++ str "func init() {" ++ nl
  ++ tab ++ str "r, err := gzip.NewReader(bytes.NewReader(".

Definition prologue_init_mid : list byte :=
  str "_gzip))" ++ nl
  ++ tab ++ str "if err != nil {" ++ nl
  ++ tab ++ tab ++ str "panic(err)" ++ nl
  ++ tab ++ str "}" ++ nl
  ++ tab ++ str "defer r.Close()" ++ nl
  ++ tab.

Definition prologue_init_tail : list byte :=
  str ", err = ioutil.ReadAll(r)" ++ nl
  ++ tab ++ str "if err != nil {" ++ nl
  ++ tab ++ tab ++ str "panic(err)" ++ nl
  ++ tab ++ str "}" ++ nl
  ++ str "}" ++ nl.

Definition gzipPrologue : list Node :=
  [ Text (prologue_imports ++ prologue_init_head);
    Dot;
    Text prologue_init_mid;
    Dot;
    Text prologue_init_tail ].

(** [gzip.BestCompression] *)
Definition BestCompression : Z := 9.

Section Main.

Context {E W : Type} `{Writer E W} `{Errno E}.

(** [compress/gzip]: what a [gzip.Writer] at the given level leaves in
    its [bytes.Buffer] once the input is written and the writer closed.
    Writes to a [bytes.Buffer] do not fail, so neither [gzw.Write] nor
    [gzw.Close] reports an error. *)
Variable gzip_compress : Z -> list byte -> list byte.

(** [io.ErrShortWrite] *)
Variable ErrShortWrite : E.

(** What [log.Fatal] and [log.Fatalf] print on the error stream. *)
Inductive Diag :=
| Fatalf_reading_stdin (err : E)
| Fatal (err : E).

Record World := { stdout : W; stderr : list Diag }.

(** A step of the process either goes on or terminates the process with
    an exit status. *)
Inductive Outcome (A : Type) :=
| Continue (a : A) (s : World)
| Exited (status : Z) (s : World).

Arguments Continue {A} a s.
Arguments Exited {A} status s.

Definition Proc (A : Type) := World -> Outcome A.

Definition ret {A} (a : A) : Proc A := fun s => Continue a s.

Definition bind {A B} (c : Proc A) (k : A -> Proc B) : Proc B :=
  fun s => match c s with
           | Continue a s' => k a s'
           | Exited status s' => Exited status s'
           end.

Notation "x <- c ;; k" := (bind c (fun x => k))
  (at level 61, c at next level, right associativity).
Notation "c ;;; k" := (bind c (fun _ => k))
  (at level 61, right associativity).

(** [log.Fatal]: the message goes to the error stream, then [os.Exit(1)]. *)
Definition log_Fatal {A} (d : Diag) : Proc A :=
  fun s => Exited 1 {| stdout := stdout s; stderr := stderr s ++ [d] |}.

(** A Go panic that nobody recovers ends the process with status 2. *)
Definition panic {A} : Proc A := fun s => Exited 2 s.

(** [runtime.sigpipe]: the process dies from the signal SIGPIPE, number
    13, and prints nothing; a shell reports the status 128 + 13. *)
Definition sigpipe {A} : Proc A := fun s => Exited 141 s.

(** Writes to [os.Stdout] through some function [f] of the writer that
    stops at the first write that fails; [error] is the error [f]
    reports.  [os.Stdout] is the file descriptor 1, and [os.File.Write]
    on it does not return from a write that fails with [EPIPE]: it calls
    [sigpipe] (a program that, as this one, does not ask for the signal
    with [signal.Notify]). *)
Definition on_stdout {A} (f : W -> W * A) (error : A -> option E) : Proc A :=
  fun s => let '(w', a) := f (stdout s) in
           let s' := {| stdout := w'; stderr := stderr s |} in
           match error a with
           | Some e => if is_EPIPE e then sigpipe s' else Continue a s'
           | None => Continue a s'
           end.

(** [fmt.Printf] and [fmt.Println]: one write of the formatted text;
    [main] never looks at what they return. *)
Definition Printf (text : list byte) : Proc (Z * option E) :=
  on_stdout (fun w => wwrite w text) snd.

(** [Template.Execute(w, data)] of [text/template] for a string [data]: the
    nodes are written one by one and the first error ends it. *)
Fixpoint Execute (t : list Node) (data : list byte) (w : W) : W * option E :=
  match t with
  | [] => (w, None)
  | node :: rest =>
    let text := match node with Text txt => txt | Dot => data end in
    let '(w', (_, err)) := wwrite w text in
    match err with
    | Some e => (w', Some e)
    | None => Execute rest data w'
    end
  end.

(** [io.Copy(dst, bytes.NewReader(b))]: a [bytes.Reader] is an
    [io.WriterTo], so the copy is [Reader.WriteTo]: nothing for an empty
    reader, else one [dst.Write] of everything. *)
Definition io_Copy (b : list byte) : Proc (Z * option E) :=
  if Z.of_nat (length b) <=? 0 then ret (0, None)
  else
    r <- on_stdout (fun w =>
           let '(w', r) := Write {| w_ := w |} b in (w_ w', r)) snd ;;
    let '(m, err) := r in
    if Z.of_nat (length b) <? m then panic
    else if negb (m =? Z.of_nat (length b))
            && (match err with None => true | Some _ => false end)
    then ret (m, Some ErrShortWrite)
    else ret (m, err).

(** [func main()], after [flag.Parse()]; [stdin] is what
    [ioutil.ReadAll(os.Stdin)] returns. *)
Definition main (flags : Flags) (stdin : list byte * option E) : Proc unit :=
  let '(raw, err) := stdin in
  match err with
  | Some e => log_Fatal (Fatalf_reading_stdin e)
  | None => ret tt
  end ;;;
  Printf (str "package " ++ packageFlag flags ++ nl ++ nl) ;;;
  raw <- (if negb (gzipFlag flags) then
            Printf (str "var " ++ varFlag flags
                    ++ str " = []byte(" ++ quote) ;;;
            ret raw
          else
            let gz := gzip_compress BestCompression raw in
            err <- on_stdout (Execute gzipPrologue (varFlag flags))
                             (fun err => err) ;;
            match err with
            | Some e => log_Fatal (Fatal e)
            | None => ret tt
            end ;;;
            Printf (str "var " ++ varFlag flags
                    ++ str " []byte // set in init" ++ nl ++ nl) ;;;
            Printf (str "var " ++ varFlag flags
                    ++ str "_gzip = []byte(" ++ quote) ;;;
            ret gz) ;;
  io_Copy raw ;;;
  Printf (quote ++ str ")" ++ nl) ;;;
  ret tt.

(** The process: [main] returning ends it with status 0. *)
Definition run (flags : Flags) (stdin : list byte * option E) (s : World)
  : Z * World :=
  match main flags stdin s with
  | Continue _ s' => (0, s')
  | Exited status s' => (status, s')
  end.

End Main.

(** The text a run leaves on a standard output that accepts everything,
    started empty. *)
Definition generate (gzip_compress : Z -> list byte -> list byte)
           (flags : Flags) (raw : list byte) : list byte :=
  stdout (snd (run (E := unit) gzip_compress tt flags (raw, None)
                   {| stdout := ([] : Buffer); stderr := [] |})).

(** * Definitions for the proofs

    The structure of [DecodeRune] and of one iteration of [Write], and
    the properties of texts the theorems are about. *)

Unset Implicit Arguments.
Import utf8 golit.

(** The table [first], by ranges of the byte value. *)
Definition first_ranges (c : Z) : Z :=
  if c <? 0x80 then as_
  else if c <? 0xC2 then xx
  else if c <? 0xE0 then s1
  else if c =? 0xE0 then s2
  else if c <? 0xED then s3
  else if c =? 0xED then s4
  else if c <? 0xF0 then s3
  else if c =? 0xF0 then s5
  else if c <? 0xF4 then s6
  else if c =? 0xF4 then s7
  else xx.

(** A continuation byte, 0x80 to 0xBF. *)
Definition is_cont (b : byte) : bool := (locb <=? b2z b) && (b2z b <=? hicb).

(** [DecodeRune] by cases on the input: the test on the second byte,
    the runes it assembles, and the decoding of a multi-byte unit whose
    leading byte announces [sz] bytes. *)
Definition in_range (a : acceptRange) (b : byte) : bool :=
  (lo a <=? b2z b) && (b2z b <=? hi a).

Definition rune2 (p0 b1 : byte) : Z :=
  Z.lor (Z.shiftl (Z.land (b2z p0) mask2) 6) (Z.land (b2z b1) maskx).

Definition rune3 (p0 b1 b2 : byte) : Z :=
  Z.lor (Z.lor (Z.shiftl (Z.land (b2z p0) mask3) 12)
               (Z.shiftl (Z.land (b2z b1) maskx) 6))
        (Z.land (b2z b2) maskx).

Definition rune4 (p0 b1 b2 b3 : byte) : Z :=
  Z.lor (Z.lor (Z.lor (Z.shiftl (Z.land (b2z p0) mask4) 18)
                      (Z.shiftl (Z.land (b2z b1) maskx) 12))
               (Z.shiftl (Z.land (b2z b2) maskx) 6))
        (Z.land (b2z b3) maskx).

(** Size and accepted range of the second byte, for a leading byte of a
    multi-byte encoding. *)
Definition lead (p0 : byte) : option (nat * acceptRange) :=
  let x := first p0 in
  if as_ <=? x then None
  else Some (Z.to_nat (Z.land x 7), acceptRanges (Z.shiftr x 4)).

Definition decode_multi (sz : nat) (a : acceptRange) (p0 : byte)
           (tl : list byte) : Z * nat :=
  match sz, tl with
  | 2%nat, b1 :: _ =>
    if in_range a b1 then (rune2 p0 b1, 2%nat) else (RuneError, 1%nat)
  | 3%nat, b1 :: b2 :: _ =>
    if in_range a b1 && is_cont b2 then (rune3 p0 b1 b2, 3%nat)
    else (RuneError, 1%nat)
  | 4%nat, b1 :: b2 :: b3 :: _ =>
    if in_range a b1 && is_cont b2 && is_cont b3
    then (rune4 p0 b1 b2 b3, 4%nat)
    else (RuneError, 1%nat)
  | _, _ => (RuneError, 1%nat)
  end.

(** What a decoding that is not the failure [(RuneError, 1)] looks like. *)
Inductive decoded : list byte -> Z -> nat -> Prop :=
| decoded1 p0 tl :
    b2z p0 < RuneSelf -> decoded (p0 :: tl) (b2z p0) 1
| decoded2 p0 b1 tl a :
    lead p0 = Some (2%nat, a) -> in_range a b1 = true ->
    decoded (p0 :: b1 :: tl) (rune2 p0 b1) 2
| decoded3 p0 b1 b2 tl a :
    lead p0 = Some (3%nat, a) -> in_range a b1 = true -> is_cont b2 = true ->
    decoded (p0 :: b1 :: b2 :: tl) (rune3 p0 b1 b2) 3
| decoded4 p0 b1 b2 b3 tl a :
    lead p0 = Some (4%nat, a) -> in_range a b1 = true -> is_cont b2 = true ->
    is_cont b3 = true ->
    decoded (p0 :: b1 :: b2 :: b3 :: tl) (rune4 p0 b1 b2 b3) 4.

(** What one iteration of the loop of [Write] writes, and by how many
    bytes it advances. *)
Definition chunk (data : list byte) : list byte * nat :=
  match data with
  | [] => ([], 0%nat)
  | b :: tl =>
    match b with
    | x5c => ([x5c; x5c], 1%nat)
    | x22 => ([x5c; x22], 1%nat)
    | x0a => ([x5c; x6e], 1%nat)
    | x00 => ([x5c; x78; x30; x30], 1%nat)
    | _ =>
      let '(r, size) := DecodeRune data in
      if negb (r =? RuneError) && negb (r =? byteOrderMark)
      then (firstn size data, size)
      else (hex_escape b, 1%nat)
    end
  end.

(** The four bytes with a case of their own in the switch of [Write]. *)
Definition special (b : byte) : bool :=
  match b with
  | x5c | x22 | x0a | x00 => true
  | _ => false
  end.

(** The cases of one iteration. *)
Inductive emits : list byte -> list byte -> nat -> Prop :=
| emits_backslash tl : emits (x5c :: tl) [x5c; x5c] 1
| emits_quote tl : emits (x22 :: tl) [x5c; x22] 1
| emits_newline tl : emits (x0a :: tl) [x5c; x6e] 1
| emits_nul tl : emits (x00 :: tl) [x5c; x78; x30; x30] 1
| emits_unit b tl r k :
    special b = false -> decoded (b :: tl) r k ->
    r <> RuneError -> r <> byteOrderMark ->
    emits (b :: tl) (firstn k (b :: tl)) k
| emits_hex b tl r k :
    special b = false -> DecodeRune (b :: tl) = (r, k) ->
    r = RuneError \/ r = byteOrderMark ->
    emits (b :: tl) (hex_escape b) 1.

(** Left-to-right scan of a literal body for a double quote that is not
    escaped; [escaped] tells that the previous byte was a backslash
    opening an escape sequence. *)
Fixpoint no_raw_quote (escaped : bool) (s : list byte) : bool :=
  match s with
  | [] => true
  | c :: t =>
    if escaped then no_raw_quote false t
    else if Byte.eqb c x5c then no_raw_quote true t
    else if Byte.eqb c x22 then false
    else no_raw_quote false t
  end.

(** The bytes of the byte order mark occur somewhere in [s]. *)
Fixpoint has_bom (s : list byte) : bool :=
  match s with
  | [] => false
  | c :: t =>
    (Byte.eqb c xef
     && match t with
        | c1 :: c2 :: _ => Byte.eqb c1 xbb && Byte.eqb c2 xbf
        | _ => false
        end)
    || has_bom t
  end.

(** The digits [%02x] prints. *)
Definition is_hexdigit (c : byte) : Prop :=
  In c [x30; x31; x32; x33; x34; x35; x36; x37; x38; x39;
        x61; x62; x63; x64; x65; x66].

(** The four escape sequences of the encoder. *)
Inductive escape_seq : list byte -> Prop :=
| esc_backslash : escape_seq [x5c; x5c]
| esc_quote : escape_seq [x5c; x22]
| esc_newline : escape_seq [x5c; x6e]
| esc_hex h1 h2 :
    is_hexdigit h1 -> is_hexdigit h2 -> escape_seq [x5c; x78; h1; h2].

(** A text read from the left as escape sequences and other bytes, none
    of which is a backslash. *)
Inductive escaped_text : list byte -> Prop :=
| et_nil : escaped_text []
| et_escape e t : escape_seq e -> escaped_text t -> escaped_text (e ++ t)
| et_raw c t : c <> x5c -> escaped_text t -> escaped_text (c :: t).

(** A byte that is none of the four. *)
Definition plain (c : byte) : bool := negb (special c).

(** The text of a template once its actions are replaced by [data]. *)
Definition render (t : list Node) (data : list byte) : list byte :=
  flat_map (fun node => match node with Text txt => txt | Dot => data end) t.

(** The pieces of the generated file. *)
Definition package_clause (pkg : list byte) : list byte :=
  str "package " ++ pkg ++ nl ++ nl.

Definition init_func (var : list byte) : list byte :=
  prologue_init_head ++ var ++ prologue_init_mid ++ var ++ prologue_init_tail.

Definition var_plain (var : list byte) : list byte :=
  str "var " ++ var ++ str " []byte // set in init" ++ nl ++ nl.

Definition var_literal (name lit : list byte) : list byte :=
  str "var " ++ name ++ str " = []byte(" ++ quote ++ lit ++ quote
  ++ str ")" ++ nl.

(** The order of the parts in gzip mode as the specification gives it:
    the initializer comes last. *)
Definition spec_gzip_layout (var lit : list byte) : list byte :=
  prologue_imports ++ var_plain var
  ++ var_literal (var ++ str "_gzip") lit ++ init_func var.

(** What a run writes, part by part. *)
Definition output (gzip_compress : Z -> list byte -> list byte)
           (flags : Flags) (raw : list byte) : list byte :=
  package_clause (packageFlag flags)
  ++ (if gzipFlag flags then
        render gzipPrologue (varFlag flags)
        ++ var_plain (varFlag flags)
        ++ var_literal (varFlag flags ++ str "_gzip")
                       (encode (gzip_compress BestCompression raw))
      else var_literal (varFlag flags) (encode raw)).

(** A unit as [DecodeRune] recognises it: it decodes as a whole, and not
    to the failure [(RuneError, 1)]. *)
Definition valid_utf8_unit (u : list byte) (r : Z) : Prop :=
  u <> [] /\ DecodeRune u = (r, length u)
  /\ (r, length u) <> (RuneError, 1%nat).

(** * Proofs *)

Arguments DecodeRune : simpl never.

(** ** Bytes *)

Lemma b2z_range b : 0 <= b2z b < 256.
Proof. unfold b2z. pose proof (Byte.to_N_bounded b). lia. Qed.

Lemma b2z_inj a b : b2z a = b2z b -> a = b.
Proof.
  unfold b2z. intros Hab. apply N2Z.inj in Hab.
  pose proof (Byte.of_to_N a) as Ha. rewrite Hab, Byte.of_to_N in Ha.
  congruence.
Qed.

Lemma z2b_b2z b : z2b (b2z b) = b.
Proof.
  unfold z2b. rewrite Z.mod_small by apply b2z_range.
  unfold b2z. now rewrite N2Z.id, Byte.of_to_N.
Qed.

Lemma b2z_z2b z : b2z (z2b z) = z mod 256.
Proof.
  unfold z2b, b2z.
  destruct (Byte.of_N (Z.to_N (z mod 256))) as [b|] eqn:Hb.
  - apply Byte.to_of_N in Hb. rewrite Hb. 
    pose proof (Z.mod_pos_bound z 256). lia.
  - apply Byte.of_N_None_iff in Hb. pose proof (Z.mod_pos_bound z 256). lia.
Qed.

(** ** The structure of [DecodeRune] *)

Lemma first_by_ranges b : first b = first_ranges (b2z b).
Proof. destruct b; reflexivity. Qed.

Lemma lead_spec p0 sz a (Hlead : lead p0 = Some (sz, a)) :
  (sz = 2 \/ sz = 3 \/ sz = 4)%nat /\ locb <= lo a /\ hi a <= hicb
  /\ 0xC2 <= b2z p0 <= 0xF4.
Proof.
  revert Hlead. unfold lead. rewrite first_by_ranges. pose proof (b2z_range p0) as Hr.
  unfold first_ranges.
  repeat match goal with
  | |- context [if ?c <? ?d then _ else _] => destruct (Z.ltb_spec c d)
  | |- context [if ?c =? ?d then _ else _] => destruct (Z.eqb_spec c d)
  end; cbn; intros Heq; inversion Heq; subst; cbn;
  unfold locb, hicb; lia.
Qed.

Lemma lead_None p0 (Hlead : lead p0 = None) :
  (b2z p0 < 0x80 /\ first p0 = as_) \/ (0x80 <= b2z p0 /\ first p0 = xx).
Proof.
  revert Hlead. unfold lead. rewrite first_by_ranges. pose proof (b2z_range p0) as Hr.
  unfold first_ranges.
  repeat match goal with
  | |- context [if ?c <? ?d then _ else _] => destruct (Z.ltb_spec c d)
  | |- context [if ?c =? ?d then _ else _] => destruct (Z.eqb_spec c d)
  end; cbn; intros Heq; inversion Heq; subst; cbn; 
  first [left; split; [lia|reflexivity] | right; split; [lia|reflexivity]].
Qed.

Ltac zcase :=
  match goal with
  | |- context [Z.ltb ?a ?b] => destruct (Z.ltb_spec a b)
  | |- context [Z.leb ?a ?b] => destruct (Z.leb_spec a b)
  | |- context [Z.eqb ?a ?b] => destruct (Z.eqb_spec a b)
  end; cbn [orb andb negb]; try reflexivity; try lia.

Lemma first_cases p0 :
  let x := first p0 in
  x = as_ \/ x = xx \/ x = s1 \/ x = s2 \/ x = s3 \/ x = s4
  \/ x = s5 \/ x = s6 \/ x = s7.
Proof. destruct p0; cbv zeta; tauto. Qed.

Ltac ground_step t :=
  let v := eval vm_compute in t in progress change t with v.

Ltac ground :=
  repeat match goal with
  | |- context [Z.land ?a 7] => ground_step (Z.land a 7)
  | |- context [Z.shiftr ?a 4] => ground_step (Z.shiftr a 4)
  | |- context [Z.to_nat ?a] => ground_step (Z.to_nat a)
  | |- context [acceptRanges ?a] => ground_step (acceptRanges a)
  | |- context [as_ <=? ?a] => ground_step (as_ <=? a)
  | |- context [?a =? xx] => ground_step (a =? xx)
  | |- context [?a <=? 2] => ground_step (a <=? 2)
  | |- context [?a <=? 3] => ground_step (a <=? 3)
  end; cbv iota; cbn [lo hi].

Lemma DecodeRune_cons p0 tl :
  DecodeRune (p0 :: tl) =
  match lead p0 with
  | None => ((if first p0 =? xx then RuneError else b2z p0), 1%nat)
  | Some (sz, a) => decode_multi sz a p0 tl
  end.
Proof.
  unfold DecodeRune, lead, at_.
  remember (Z.of_nat (length (p0 :: tl))) as n eqn:Hn.
  assert (Hn1 : (n <? 1) = false) by (apply Z.ltb_ge; subst n; simpl length; lia).
  rewrite Hn1. cbn [nth].
  pose proof (first_cases p0) as Hx. cbv zeta in Hx.
  generalize dependent (first p0); intros x Hx;
  repeat (destruct Hx as [Hx|Hx]); subst x; ground; try reflexivity.
  all: destruct tl as [|b1 [|b2 [|b3 tl]]]; simpl length in Hn;
       cbn [nth decode_multi];
       unfold in_range, is_cont, rune2, rune3, rune4, locb, hicb;
       cbn [lo hi]; repeat zcase.
Qed.

Lemma is_cont_in_range a b (Hlo : locb <= lo a) (Hhi : hi a <= hicb)
      (Hb : in_range a b = true) : is_cont b = true.
Proof.
  unfold in_range, is_cont in *.
  apply andb_true_iff in Hb as [H1 H2].
  apply Z.leb_le in H1, H2. apply andb_true_iff; split; apply Z.leb_le; lia.
Qed.

Lemma DecodeRune_decoded p r k :
  p <> [] -> DecodeRune p = (r, k) ->
  (r = RuneError /\ k = 1%nat) \/ decoded p r k.
Proof.
  destruct p as [|p0 tl]; [congruence|]. intros _.
  rewrite DecodeRune_cons.
  destruct (lead p0) as [[sz a]|] eqn:Hl.
  - destruct (lead_spec _ _ _ Hl) as [Hsz _].
    destruct Hsz as [-> | [-> | ->]]; cbn [decode_multi].
    + destruct tl as [|b1 tl]; [intros [= <- <-]; auto|].
      destruct (in_range a b1) eqn:H1; intros [= <- <-]; eauto using decoded.
    + destruct tl as [|b1 [|b2 tl]]; try (intros [= <- <-]; auto; fail).
      destruct (in_range a b1) eqn:H1, (is_cont b2) eqn:H2; cbn [andb];
        intros [= <- <-]; eauto using decoded.
    + destruct tl as [|b1 [|b2 [|b3 tl]]]; try (intros [= <- <-]; auto; fail).
      destruct (in_range a b1) eqn:H1, (is_cont b2) eqn:H2,
               (is_cont b3) eqn:H3; cbn [andb];
        intros [= <- <-]; eauto using decoded.
  - destruct (lead_None _ Hl) as [[Hlt ->] | [Hge ->]]; cbn.
    + intros [= <- <-]. right. constructor. exact Hlt.
    + intros [= <- <-]. auto.
Qed.

Lemma decoded_DecodeRune p r k : decoded p r k -> DecodeRune p = (r, k).
Proof.
  intros Hd. destruct Hd; rewrite DecodeRune_cons.
  - unfold lead. rewrite first_by_ranges. unfold first_ranges, RuneSelf in *.
    destruct (Z.ltb_spec (b2z p0) 128); [reflexivity | lia].
  - rewrite H. cbn. now rewrite H0.
  - rewrite H. cbn. now rewrite H0, H1.
  - rewrite H. cbn. now rewrite H0, H1, H2.
Qed.

(** The bytes of a decoded unit: its width is within the input, the first
    byte is not a continuation byte, the others are. *)
Lemma decoded_shape p r k :
  decoded p r k ->
  exists p0 cont rest,
    p = p0 :: cont ++ rest /\ k = S (length cont)
    /\ is_cont p0 = false /\ forallb is_cont cont = true
    /\ (cont = [] -> r = b2z p0 /\ b2z p0 < RuneSelf)
    /\ (cont <> [] -> 0xC2 <= b2z p0).
Proof.
  intros Hd; destruct Hd.
  - exists p0, [], tl. repeat split; try easy.
    unfold is_cont, locb, RuneSelf in *.
    destruct (Z.leb_spec 128 (b2z p0)); [lia | reflexivity].
  - destruct (lead_spec _ _ _ H) as (_ & Hlo & Hhi & Hp0).
    exists p0, [b1], tl. repeat split; try easy; try lia.
    + unfold is_cont, locb, hicb. 
      destruct (Z.leb_spec (b2z p0) 191); [lia | apply andb_false_r].
    + cbn. now rewrite (is_cont_in_range _ _ Hlo Hhi H0).
  - destruct (lead_spec _ _ _ H) as (_ & Hlo & Hhi & Hp0).
    exists p0, [b1; b2], tl. repeat split; try easy; try lia.
    + unfold is_cont, locb, hicb. 
      destruct (Z.leb_spec (b2z p0) 191); [lia | apply andb_false_r].
    + cbn. now rewrite (is_cont_in_range _ _ Hlo Hhi H0), H1.
  - destruct (lead_spec _ _ _ H) as (_ & Hlo & Hhi & Hp0).
    exists p0, [b1; b2; b3], tl. repeat split; try easy; try lia.
    + unfold is_cont, locb, hicb. 
      destruct (Z.leb_spec (b2z p0) 191); [lia | apply andb_false_r].
    + cbn. now rewrite (is_cont_in_range _ _ Hlo Hhi H0), H1, H2.
Qed.

(** A decoded unit depends on its own bytes only. *)
Lemma decoded_local p r k t :
  decoded p r k -> decoded (firstn k p ++ t) r k.
Proof.
  intros Hd; destruct Hd; cbn [firstn app]; rewrite ?firstn_O; cbn [app];
    eauto using decoded.
Qed.

Lemma in_range_not_cont a b (Hlo : locb <= lo a) (Hhi : hi a <= hicb)
      (Hb : is_cont b = false) : in_range a b = false.
Proof.
  destruct (in_range a b) eqn:Hr; [|reflexivity].
  rewrite (is_cont_in_range _ _ Hlo Hhi Hr) in Hb. discriminate.
Qed.

(** Self-synchronisation: what follows the input does not matter once a
    byte that is not a continuation byte is met. *)
Lemma DecodeRune_sync s b t :
  s <> [] -> is_cont b = false ->
  DecodeRune (s ++ b :: t) = DecodeRune s.
Proof.
  intros Hs Hb. destruct s as [|p0 tl]; [congruence|].
  cbn [app]. rewrite !DecodeRune_cons.
  destruct (lead p0) as [[sz a]|] eqn:Hl; [|reflexivity].
  destruct (lead_spec _ _ _ Hl) as (Hsz & Hlo & Hhi & _).
  pose proof (in_range_not_cont _ _ Hlo Hhi Hb) as Hrb.
  destruct Hsz as [-> | [-> | ->]];
    destruct tl as [|b1 [|b2 [|b3 tl]]]; cbn [app decode_multi];
    rewrite ?Hrb, ?Hb, ?andb_false_r; cbn [andb]; try reflexivity;
    repeat match goal with
           | |- context [match ?l with [] => _ | _ :: _ => _ end] =>
             destruct l; try reflexivity
           | |- context [if ?c then _ else _] => destruct c; try reflexivity
           end.
Qed.

(** ** One iteration of [Write] *)

Lemma chunk_default b tl :
  special b = false ->
  chunk (b :: tl) =
  let '(r, size) := DecodeRune (b :: tl) in
  if negb (r =? RuneError) && negb (r =? byteOrderMark)
  then (firstn size (b :: tl), size)
  else (hex_escape b, 1%nat).
Proof. destruct b; cbn [special]; intros Hs; try discriminate Hs; reflexivity. Qed.

Lemma chunk_emits b tl :
  emits (b :: tl) (fst (chunk (b :: tl))) (snd (chunk (b :: tl))).
Proof.
  destruct (special b) eqn:Hs.
  - destruct b; try discriminate Hs; cbn; constructor.
  - rewrite (chunk_default _ _ Hs).
    destruct (DecodeRune (b :: tl)) as [r k] eqn:Hd.
    destruct (Z.eqb_spec r RuneError) as [Hr|Hr]; cbn [negb andb fst snd].
    + eapply emits_hex; eauto.
    + destruct (Z.eqb_spec r byteOrderMark) as [Hm|Hm]; cbn [negb andb fst snd].
      * eapply emits_hex; eauto.
      * destruct (DecodeRune_decoded (b :: tl) r k ltac:(discriminate) Hd) as [[? ?]|Hdec];
          [congruence|].
        eapply emits_unit; eauto.
Qed.

Lemma emits_size data out k :
  emits data out k -> (1 <= k <= length data)%nat /\ out <> [].
Proof.
  intros He; destruct He; cbn [length]; try (split; [lia | discriminate]).
  destruct (decoded_shape _ _ _ H0) as (p0 & cont & rest & Hp & Hk & _).
  injection Hp as -> ->. subst k. rewrite length_app. split; [lia|].
  cbn. discriminate.
Qed.


(** ** The loop of [Write] *)

Section WriteFacts.

Context {E W : Type} `{Writer E W}.

Lemma Write_loop_step f (w : W) b tl :
  Write_loop (S f) w (b :: tl) None =
  let '(w', (_, err')) := wwrite w (fst (chunk (b :: tl))) in
  Write_loop f w' (skipn (snd (chunk (b :: tl))) (b :: tl)) err'.
Proof.
  destruct b; cbn [Write_loop chunk fst snd skipn]; try reflexivity;
    destruct (DecodeRune _) as [r k];
    destruct (negb (r =? RuneError) && negb (r =? byteOrderMark));
    reflexivity.
Qed.

Lemma Write_loop_err f (w : W) data e :
  Write_loop f w data (Some e) = (w, data, Some e).
Proof. destruct f; reflexivity. Qed.

Lemma Write_loop_nil f (w : W) e : Write_loop f w [] e = (w, [], e).
Proof. destruct f, e; reflexivity. Qed.

Lemma chunk_size b tl :
  (1 <= snd (chunk (b :: tl)) <= length (b :: tl))%nat.
Proof. exact (proj1 (emits_size _ _ _ (chunk_emits b tl))). Qed.

(** Fuel beyond the length of the input is never used. *)
Lemma Write_loop_fuel f : forall f' (w : W) data e,
  (length data <= f)%nat -> (length data <= f')%nat ->
  Write_loop f w data e = Write_loop f' w data e.
Proof.
  induction f as [|f IH]; intros f' w data e Hf Hf'.
  - destruct data; [|cbn in Hf; lia]. now rewrite !Write_loop_nil.
  - destruct e as [e|]; [now rewrite !Write_loop_err|].
    destruct data as [|b tl]; [now rewrite !Write_loop_nil|].
    destruct f' as [|f']; [cbn in Hf'; lia|].
    rewrite !Write_loop_step.
    destruct (wwrite w (fst (chunk (b :: tl)))) as [w' [n err']].
    pose proof (chunk_size b tl) as Hk.
    apply IH; rewrite length_skipn; cbn [length] in *; lia.
Qed.

(** The loop ends with an error or with all of the input consumed. *)
Lemma Write_loop_done f : forall (w : W) data e w' data' e',
  (length data <= f)%nat ->
  Write_loop f w data e = (w', data', e') ->
  e' = None -> data' = [].
Proof.
  induction f as [|f IH]; intros w data e w' data' e' Hf Hrun He.
  - destruct data; [|cbn in Hf; lia]. cbn in Hrun. congruence.
  - destruct e as [e|]; [rewrite Write_loop_err in Hrun; congruence|].
    destruct data as [|b tl]; [rewrite Write_loop_nil in Hrun; congruence|].
    rewrite Write_loop_step in Hrun.
    destruct (wwrite w (fst (chunk (b :: tl)))) as [w1 [n err1]].
    pose proof (chunk_size b tl) as Hk.
    eapply IH; [|exact Hrun|exact He].
    rewrite length_skipn; cbn [length] in *; lia.
Qed.

End WriteFacts.

(** ** The encoder as a function *)

Lemma Buffer_loop (E : Type) f : forall (buf : Buffer) data,
  Write_loop (E := E) f buf data None =
  (buf ++ fst (fst (Write_loop (E := E) f ([] : Buffer) data None)),
   snd (fst (Write_loop (E := E) f ([] : Buffer) data None)), None).
Proof.
  induction f as [|f IH]; intros buf data.
  - cbn. now rewrite app_nil_r.
  - destruct data as [|b tl]; [cbn; now rewrite app_nil_r|].
    rewrite !Write_loop_step. unfold wwrite, Buffer_Writer.
    rewrite (IH (buf ++ _)), (IH ([] ++ _)). cbn [fst snd app].
    now rewrite app_assoc.
Qed.

Lemma encode_nil : encode [] = [].
Proof. reflexivity. Qed.

Lemma encode_cons b tl :
  encode (b :: tl) =
  fst (chunk (b :: tl)) ++ encode (skipn (snd (chunk (b :: tl))) (b :: tl)).
Proof.
  unfold encode, Write. cbn [w_ length].
  rewrite Write_loop_step. unfold wwrite at 1, Buffer_Writer at 1.
  rewrite Buffer_loop. cbn [app].
  pose proof (chunk_size b tl) as Hk.
  rewrite (Write_loop_fuel (length tl)
             (length (skipn (snd (chunk (b :: tl))) (b :: tl))))
    by (rewrite ?length_skipn; cbn [length] in *; lia).
  destruct (Write_loop _ _ _ _) as [[o d] e]. reflexivity.
Qed.


(** Induction along the iterations of the encoder. *)
Lemma encode_ind (P : list byte -> list byte -> Prop) :
  P [] [] ->
  (forall data out k,
      emits data out k ->
      P (skipn k data) (encode (skipn k data)) ->
      P data (out ++ encode (skipn k data))) ->
  forall data, P data (encode data).
Proof.
  intros Hnil Hstep data.
  remember (length data) as n eqn:Hn.
  revert data Hn. induction n as [n IH] using lt_wf_ind. intros data Hn.
  destruct data as [|b tl]; [exact Hnil|].
  rewrite encode_cons.
  pose proof (chunk_emits b tl) as He.
  pose proof (chunk_size b tl) as Hk.
  apply Hstep; [exact He|].
  eapply IH; [|reflexivity].
  rewrite length_skipn. subst n. cbn [length] in *. lia.
Qed.

(** ** The round trip through the Go literal *)

Lemma firstn_skipn_decoded data r k t :
  decoded data r k ->
  firstn k (firstn k data ++ t) = firstn k data
  /\ skipn k (firstn k data ++ t) = t.
Proof.
  intros Hd. destruct Hd; cbn; auto.
Qed.

Lemma escape_hex b rest :
  escape (x78 :: hexdigit (b2z b / 16) :: hexdigit (b2z b mod 16) :: rest)
  = Some ([b], rest).
Proof. destruct b; reflexivity. Qed.

Lemma unquote_loop_default f b t :
  special b = false ->
  unquote_loop (S f) (b :: t) =
  if b2z b <? RuneSelf then option_map (cons b) (unquote_loop f t)
  else
    let '(r, width) := DecodeRune (b :: t) in
    if (r =? RuneError) && (Nat.eqb width 1) then None
    else if r =? byteOrderMark then None
    else option_map (app (firstn width (b :: t)))
                    (unquote_loop f (skipn width (b :: t))).
Proof.
  destruct b; cbn [special]; intros Hs; try discriminate Hs; reflexivity.
Qed.

Lemma unquote_encode_fuel data :
  forall f, (length (encode data) <= f)%nat ->
            unquote_loop f (encode data) = Some data.
Proof.
  pattern data, (encode data). apply encode_ind; clear data.
  - intros f _. destruct f; reflexivity.
  - intros data out k He IH f Hf.
    pose proof (emits_size _ _ _ He) as [Hk Hout].
    rewrite length_app in Hf.
    destruct f as [|f]; [destruct out; [congruence | cbn in Hf; lia]|].
    assert (Hrest : unquote_loop f (encode (skipn k data)) = Some (skipn k data)).
    { apply IH. destruct out; [congruence | cbn in Hf; lia]. }
    destruct He as [tl|tl|tl|tl|b tl r k Hs Hd Hr Hm|b tl r k Hs Hd Hr];
      cbn [skipn] in *.
    + cbn. now rewrite Hrest.
    + cbn. now rewrite Hrest.
    + cbn. now rewrite Hrest.
    + cbn. now rewrite Hrest.
    + destruct (firstn_skipn_decoded _ _ _ (encode (skipn k (b :: tl))) Hd)
        as [Hfn Hsk].
      pose proof (decoded_DecodeRune _ _ _ (decoded_local _ _ _
                    (encode (skipn k (b :: tl))) Hd)) as Hdec.
      destruct k as [|k]; [lia|].
      set (rest_out := encode (skipn (S k) (b :: tl))) in *.
      change (firstn (S k) (b :: tl) ++ rest_out)
        with (b :: (firstn k tl ++ rest_out)).
      rewrite (unquote_loop_default _ _ _ Hs).
      destruct (decoded_shape _ _ _ Hd)
        as (p0 & cont & rest & Hp & Hkk & _ & _ & Hc1 & Hc2).
      injection Hp as <- Htl.
      destruct (Z.ltb_spec (b2z b) RuneSelf) as [Hlt|Hge].
      * destruct cont as [|c cont].
        -- injection Hkk as ->. cbn [firstn app skipn] in *. now rewrite Hrest.
        -- assert (0xC2 <= b2z b) by (apply Hc2; discriminate).
           unfold RuneSelf in Hlt. lia.
      * change (b :: (firstn k tl ++ rest_out))
          with (firstn (S k) (b :: tl) ++ rest_out).
        rewrite Hdec.
        destruct (Z.eqb_spec r RuneError); [contradiction|].
        destruct (Z.eqb_spec r byteOrderMark); [contradiction|].
        cbn [andb]. rewrite Hfn, Hsk, Hrest. cbn [option_map].
        f_equal. apply firstn_skipn.
    + unfold hex_escape. cbn [app unquote_loop]. rewrite escape_hex.
      rewrite Hrest. reflexivity.
Qed.

(** ** Synchronisation: the encoder restarts at every unit *)

Lemma DecodeRune_size p0 tl r k :
  DecodeRune (p0 :: tl) = (r, k) -> (1 <= k <= length (p0 :: tl))%nat.
Proof.
  intros Hd.
  destruct (DecodeRune_decoded (p0 :: tl) r k ltac:(discriminate) Hd)
    as [[_ ->]|Hdec].
  - cbn [length]. lia.
  - destruct (decoded_shape _ _ _ Hdec) as (q & cont & rest & Hp & -> & _).
    rewrite Hp. cbn [length]. rewrite length_app. lia.
Qed.

Lemma special_not_cont b : special b = true -> is_cont b = false.
Proof. destruct b; cbn [special]; intros Hs; try discriminate Hs; reflexivity. Qed.

Lemma chunk_sync s b t :
  s <> [] -> is_cont b = false -> chunk (s ++ b :: t) = chunk s.
Proof.
  intros Hs Hb. destruct s as [|p0 tl]; [congruence|]. cbn [app].
  destruct (special p0) eqn:Hp.
  - destruct p0; try discriminate Hp; reflexivity.
  - rewrite !(chunk_default _ _ Hp).
    change (p0 :: tl ++ b :: t) with ((p0 :: tl) ++ b :: t).
    rewrite (DecodeRune_sync _ _ _ Hs Hb).
    destruct (DecodeRune (p0 :: tl)) as [r k] eqn:Hd.
    pose proof (DecodeRune_size _ _ _ _ Hd) as Hk.
    rewrite firstn_app.
    replace (k - length (p0 :: tl))%nat with 0%nat by lia.
    now rewrite firstn_O, app_nil_r.
Qed.

(** The encoder restarts at every byte that is not a continuation byte:
    what comes before it is encoded on its own. *)
Lemma encode_sync pre b post :
  is_cont b = false ->
  encode (pre ++ b :: post) = encode pre ++ encode (b :: post).
Proof.
  intros Hb. remember (length pre) as n eqn:Hn.
  revert pre Hn. induction n as [n IH] using lt_wf_ind. intros pre Hn.
  destruct pre as [|p0 tl]; [rewrite encode_nil; cbn [app]; reflexivity|].
  change ((p0 :: tl) ++ b :: post) with (p0 :: (tl ++ b :: post)).
  rewrite encode_cons.
  change (p0 :: (tl ++ b :: post)) with ((p0 :: tl) ++ b :: post).
  rewrite (chunk_sync (p0 :: tl) b post ltac:(discriminate) Hb).
  rewrite (encode_cons p0 tl).
  pose proof (chunk_size p0 tl) as Hk.
  rewrite skipn_app.
  replace (snd (chunk (p0 :: tl)) - length (p0 :: tl))%nat with 0%nat by lia.
  cbn [skipn]. rewrite <- app_assoc. f_equal.
  eapply IH; [|reflexivity].
  rewrite length_skipn. subst n. cbn [length] in *. lia.
Qed.

(** A unit that decodes to something else than [RuneError] and the byte
    order mark is copied. *)
Lemma encode_unit u r post :
  decoded u r (length u) ->
  special (hd x00 u) = false ->
  r <> RuneError -> r <> byteOrderMark ->
  encode (u ++ post) = u ++ encode post.
Proof.
  intros Hd Hs Hr Hm.
  destruct u as [|b tl]; [inversion Hd|]. cbn [hd] in Hs.
  cbn [app]. rewrite encode_cons.
  rewrite (chunk_default _ _ Hs).
  change (b :: tl ++ post) with ((b :: tl) ++ post).
  pose proof (decoded_local _ _ _ post Hd) as Hl.
  rewrite firstn_all in Hl.
  rewrite (decoded_DecodeRune _ _ _ Hl).
  destruct (Z.eqb_spec r RuneError); [contradiction|].
  destruct (Z.eqb_spec r byteOrderMark); [contradiction|].
  cbn [negb andb fst snd].
  rewrite firstn_app, firstn_all, Nat.sub_diag, firstn_O, app_nil_r.
  rewrite skipn_app, skipn_all, Nat.sub_diag. reflexivity.
Qed.


(** ** Legality of the output *)

Lemma is_cont_plain c : is_cont c = true -> plain c = true.
Proof.
  intros Hc. unfold plain. destruct (special c) eqn:Hs; [|reflexivity].
  rewrite (special_not_cont _ Hs) in Hc. discriminate.
Qed.

Lemma is_cont_not_ef c : is_cont c = true -> Byte.eqb c xef = false.
Proof. destruct c; cbn; intros Hc; try discriminate Hc; reflexivity. Qed.

Lemma forallb_cont_plain cont :
  forallb is_cont cont = true -> forallb plain cont = true.
Proof.
  induction cont as [|c cont IH]; [reflexivity|]. cbn [forallb].
  intros Hc. apply andb_true_iff in Hc as [H1 H2].
  now rewrite (is_cont_plain _ H1), IH.
Qed.

(** The bytes of a copied unit. *)
Lemma decoded_unit_bytes b tl r k :
  decoded (b :: tl) r k ->
  exists cont, firstn k (b :: tl) = b :: cont /\ forallb is_cont cont = true.
Proof.
  intros Hd.
  destruct (decoded_shape _ _ _ Hd) as (p0 & cont & rest & Hp & -> & _ & Hc & _).
  injection Hp as <- ->. exists cont. split; [|exact Hc].
  cbn [firstn]. f_equal.
  rewrite firstn_app, firstn_all, Nat.sub_diag, firstn_O. apply app_nil_r.
Qed.

Lemma hexdigit_is_hexdigit d : is_hexdigit (hexdigit d).
Proof.
  unfold is_hexdigit, hexdigit.
  match goal with
  | |- In (nth ?i ?l ?d) _ => destruct (nth_in_or_default i l d) as [Hin | ->]
  end; [exact Hin | now left].
Qed.

Lemma hex_escape_seq b : escape_seq (hex_escape b).
Proof. unfold hex_escape. constructor; apply hexdigit_is_hexdigit. Qed.

(** *** Plain bytes in front of a text *)

Lemma plain_no_raw_quote u rest :
  forallb plain u = true ->
  no_raw_quote false (u ++ rest) = no_raw_quote false rest.
Proof.
  induction u as [|c u IH]; [reflexivity|]. cbn [forallb app no_raw_quote].
  intros Hu. apply andb_true_iff in Hu as [Hc Hu].
  rewrite <- (IH Hu).
  destruct c; try discriminate Hc; reflexivity.
Qed.

Lemma plain_not_in u rest c :
  special c = true -> forallb plain u = true ->
  In c (u ++ rest) -> In c rest.
Proof.
  intros Hc. induction u as [|a u IH]; [auto|]. cbn [forallb app].
  intros Hu. apply andb_true_iff in Hu as [Ha Hu].
  intros [-> | Hin]; [|auto].
  unfold plain in Ha. rewrite Hc in Ha. discriminate.
Qed.

Lemma plain_escaped_text u rest :
  forallb plain u = true -> escaped_text rest -> escaped_text (u ++ rest).
Proof.
  induction u as [|c u IH]; [auto|]. cbn [forallb app].
  intros Hu Hr. apply andb_true_iff in Hu as [Hc Hu].
  apply et_raw; [|auto]. intros ->. discriminate Hc.
Qed.

Lemma cont_has_bom cont rest :
  forallb is_cont cont = true -> has_bom (cont ++ rest) = has_bom rest.
Proof.
  induction cont as [|c cont IH]; [reflexivity|]. cbn [forallb app has_bom].
  intros Hc. apply andb_true_iff in Hc as [H1 H2].
  now rewrite (is_cont_not_ef _ H1), IH.
Qed.

Lemma unit_has_bom b tl r k rest :
  decoded (b :: tl) r k -> r <> byteOrderMark ->
  has_bom (firstn k (b :: tl) ++ rest) = has_bom rest.
Proof.
  intros Hd Hm.
  destruct (decoded_unit_bytes _ _ _ _ Hd) as (cont & Hf & Hc).
  rewrite Hf. cbn [app has_bom]. rewrite (cont_has_bom _ _ Hc).
  destruct (Byte.eqb b xef) eqn:Hb; [|reflexivity].
  apply Byte.byte_dec_bl in Hb. subst b.
  inversion Hd as [p0 t Hlt | p0 b1 t a Hl H1 | p0 b1 b2 t a Hl H1 H2
                  | p0 b1 b2 b3 t a Hl H1 H2 H3]; subst; cbn [firstn] in Hf.
  - vm_compute in Hlt. discriminate Hlt.
  - vm_compute in Hl. discriminate Hl.
  - injection Hf as <-. cbn [app andb].
    destruct (Byte.eqb b1 xbb) eqn:E1; [|reflexivity].
    destruct (Byte.eqb b2 xbf) eqn:E2; [|reflexivity].
    apply Byte.byte_dec_bl in E1, E2. subst b1 b2.
    exfalso. apply Hm. reflexivity.
  - vm_compute in Hl. discriminate Hl.
Qed.

Lemma hex_no_raw_quote b rest :
  no_raw_quote false (hex_escape b ++ rest) = no_raw_quote false rest.
Proof. destruct b; reflexivity. Qed.

Lemma hex_has_bom b rest : has_bom (hex_escape b ++ rest) = has_bom rest.
Proof. destruct b; reflexivity. Qed.

Lemma hex_not_in b rest c :
  special c = true -> c <> x5c -> In c (hex_escape b ++ rest) -> In c rest.
Proof.
  intros Hc Hn. unfold hex_escape. cbn [app].
  intros [<- | [<- | [<- | [<- | Hin]]]]; try exact Hin; try congruence;
    try discriminate Hc; destruct b; discriminate Hc.
Qed.

Lemma has_bom_infix s :
  has_bom s = false -> forall pre post, s <> pre ++ [xef; xbb; xbf] ++ post.
Proof.
  intros Hs pre. revert s Hs.
  induction pre as [|a pre IH]; intros s Hs post Heq; subst s.
  - cbn in Hs. discriminate Hs.
  - cbn [app has_bom] in Hs. apply orb_false_iff in Hs as [_ Hs].
    exact (IH _ Hs post eq_refl).
Qed.

(** The four properties of the output, along the iterations. *)
Lemma encode_invariants data :
  ~ In x0a (encode data) /\ ~ In x00 (encode data)
  /\ no_raw_quote false (encode data) = true
  /\ has_bom (encode data) = false
  /\ escaped_text (encode data).
Proof.
  pattern data, (encode data). apply encode_ind; clear data.
  - cbn. repeat split; auto using et_nil.
  - intros data out k He (Hnl & Hnul & Hq & Hb & Ht).
    destruct He as [tl|tl|tl|tl|b tl r k Hs Hd Hr Hm|b tl r k Hs Hd Hr].
    + repeat split; auto.
      * intros [H|[H|H]]; [discriminate H|discriminate H|auto].
      * intros [H|[H|H]]; [discriminate H|discriminate H|auto].
      * apply et_escape; [constructor|auto].
    + repeat split; auto.
      * intros [H|[H|H]]; [discriminate H|discriminate H|auto].
      * intros [H|[H|H]]; [discriminate H|discriminate H|auto].
      * apply et_escape; [constructor|auto].
    + repeat split; auto.
      * intros [H|[H|H]]; [discriminate H|discriminate H|auto].
      * intros [H|[H|H]]; [discriminate H|discriminate H|auto].
      * apply et_escape; [constructor|auto].
    + repeat split; auto.
      * intros [H|[H|[H|[H|H]]]]; try discriminate H; auto.
      * intros [H|[H|[H|[H|H]]]]; try discriminate H; auto.
      * apply (et_escape [x5c; x78; x30; x30]); [|auto].
        constructor; unfold is_hexdigit; cbn; tauto.
    + destruct (decoded_unit_bytes _ _ _ _ Hd) as (cont & Hf & Hc).
      assert (Hp : forallb plain (firstn k (b :: tl)) = true).
      { rewrite Hf. cbn [forallb]. unfold plain at 1. rewrite Hs.
        now rewrite (forallb_cont_plain _ Hc). }
      repeat split.
      * intros Hin. apply Hnl. now apply (plain_not_in _ _ x0a eq_refl Hp).
      * intros Hin. apply Hnul. now apply (plain_not_in _ _ x00 eq_refl Hp).
      * now rewrite plain_no_raw_quote.
      * now rewrite (unit_has_bom _ _ _ _ _ Hd Hm).
      * now apply plain_escaped_text.
    + repeat split.
      * intros Hin. apply Hnl.
        now apply (hex_not_in b _ x0a eq_refl ltac:(discriminate)).
      * intros Hin. apply Hnul.
        now apply (hex_not_in b _ x00 eq_refl ltac:(discriminate)).
      * now rewrite hex_no_raw_quote.
      * now rewrite hex_has_bom.
      * apply et_escape; [apply hex_escape_seq|auto].
Qed.


(** ** The count and the error of [Write] *)

Section WriteCount.

Context {E W : Type} `{Writer E W}.

(** What is left of the input is a suffix of it. *)
Lemma Write_loop_suffix f : forall (w : W) data e w' data' e',
  Write_loop f w data e = (w', data', e') -> exists pre, data = pre ++ data'.
Proof.
  induction f as [|f IH]; intros w data e w' data' e' Hrun.
  - cbn in Hrun. injection Hrun as _ <- _. now exists [].
  - destruct e as [e|];
      [rewrite Write_loop_err in Hrun; injection Hrun as _ <- _; now exists []|].
    destruct data as [|b tl];
      [rewrite Write_loop_nil in Hrun; injection Hrun as _ <- _; now exists []|].
    rewrite Write_loop_step in Hrun.
    destruct (wwrite w (fst (chunk (b :: tl)))) as [w1 [m err1]].
    destruct (IH _ _ _ _ _ _ Hrun) as [pre Hpre].
    exists (firstn (snd (chunk (b :: tl))) (b :: tl) ++ pre).
    rewrite <- app_assoc, <- Hpre. symmetry. apply firstn_skipn.
Qed.

(** When the loop ends with an error, the last iteration wrote the unit
    in front of what is left, and that write failed. *)
Lemma Write_loop_failed f : forall (w : W) data w' post e,
  Write_loop f w data None = (w', post, Some e) ->
  exists k w0 unit m,
    Write_loop k w data None = (w0, unit ++ post, None)
    /\ unit <> []
    /\ snd (chunk (unit ++ post)) = length unit
    /\ wwrite w0 (fst (chunk (unit ++ post))) = (w', (m, Some e)).
Proof.
  induction f as [|f IH]; intros w data w' post e Hrun.
  - cbn in Hrun. discriminate Hrun.
  - destruct data as [|b tl]; [rewrite Write_loop_nil in Hrun; discriminate Hrun|].
    rewrite Write_loop_step in Hrun.
    destruct (wwrite w (fst (chunk (b :: tl)))) as [w1 [m err1]] eqn:Hw.
    pose proof (chunk_size b tl) as Hk.
    destruct err1 as [e1|].
    + rewrite Write_loop_err in Hrun. injection Hrun as <- <- <-.
      exists 0%nat, w, (firstn (snd (chunk (b :: tl))) (b :: tl)), m.
      rewrite firstn_skipn. repeat split; auto.
      * intros Hnil. apply (f_equal (@length byte)) in Hnil.
        rewrite length_firstn in Hnil. cbn [length] in *. lia.
      * rewrite length_firstn. lia.
    + destruct (IH _ _ _ _ _ Hrun) as (k & w0 & unit & m' & Hk' & Hu & Hl & Hf).
      exists (S k), w0, unit, m'. repeat split; auto.
      rewrite Write_loop_step, Hw. exact Hk'.
Qed.

(** A loop that is not over after [k] units of fuel has run [k]
    iterations, each of which took at least one byte. *)
Lemma Write_loop_running k : forall (w : W) data w0 b rest,
  Write_loop k w data None = (w0, b :: rest, None) ->
  (k + length (b :: rest) <= length data)%nat
  /\ forall f, Write_loop (k + f) w data None = Write_loop f w0 (b :: rest) None.
Proof.
  induction k as [|k IH]; intros w data w0 b rest Hrun.
  - cbn in Hrun. injection Hrun as <- <-. split; [cbn; lia | reflexivity].
  - destruct data as [|c tl]; [rewrite Write_loop_nil in Hrun; discriminate Hrun|].
    rewrite Write_loop_step in Hrun.
    change (S k + ?f)%nat with (S (k + f)).
    destruct (wwrite w (fst (chunk (c :: tl)))) as [w1 [m err1]] eqn:Hw.
    destruct err1 as [e1|];
      [rewrite Write_loop_err in Hrun; discriminate Hrun|].
    destruct (IH _ _ _ _ _ Hrun) as [Hlen Hcont].
    pose proof (chunk_size c tl) as Hk.
    rewrite length_skipn in Hlen. split; [cbn [length] in *; lia|].
    intros f. rewrite Write_loop_step, Hw. apply Hcont.
Qed.

(** A failing write ends [Write] with its error; the count includes the
    unit whose write failed. *)
Lemma Write_failing_write (w : writer W) data k w0 b rest w1 m e :
  Write_loop k (w_ w) data None = (w0, b :: rest, None) ->
  wwrite w0 (fst (chunk (b :: rest))) = (w1, (m, Some e)) ->
  Write w data =
  ({| w_ := w1 |},
   (Z.of_nat (length data)
    - Z.of_nat (length (skipn (snd (chunk (b :: rest))) (b :: rest))),
    Some e)).
Proof.
  intros Hrun Hw.
  destruct (Write_loop_running _ _ _ _ _ _ Hrun) as [Hlen Hcont].
  assert (Heq : Write_loop (length data) (w_ w) data None
                = Write_loop (length data - k) w0 (b :: rest) None).
  { rewrite <- Hcont. f_equal. lia. }
  unfold Write. rewrite Heq.
  destruct (length data - k)%nat as [|f] eqn:Hf; [cbn [length] in Hlen; lia|].
  rewrite Write_loop_step, Hw, Write_loop_err. reflexivity.
Qed.

End WriteCount.


(** ** The generator on a standard output that accepts everything *)

Lemma Execute_Buffer t data : forall buf : Buffer,
  Execute (E := unit) t data buf = (buf ++ render t data, None).
Proof.
  induction t as [|node t IH]; intros buf; cbn [Execute render flat_map].
  - now rewrite app_nil_r.
  - unfold wwrite, Buffer_Writer. rewrite IH. now rewrite <- app_assoc.
Qed.

Lemma Write_Buffer (o : Buffer) raw :
  Write (E := unit) {| w_ := o |} raw =
  ({| w_ := o ++ encode raw |}, (Z.of_nat (length raw), None)).
Proof.
  unfold encode, Write. cbn [w_ fst].
  rewrite Buffer_loop.
  destruct (Write_loop (E := unit) (length raw) ([] : Buffer) raw None)
    as [[out rest] e] eqn:Hrun.
  cbn [fst snd w_].
  assert (He : e = None).
  { rewrite Buffer_loop in Hrun. now injection Hrun. }
  rewrite (Write_loop_done (length raw) _ _ _ _ _ _ (le_n _) Hrun He).
  cbn [length]. now rewrite Z.sub_0_r.
Qed.

Lemma io_Copy_Buffer esw raw (o : Buffer) d :
  io_Copy (E := unit) esw raw {| stdout := o; stderr := d |} =
  Continue (Z.of_nat (length raw), None)
           {| stdout := o ++ encode raw; stderr := d |}.
Proof.
  unfold io_Copy.
  destruct raw as [|b tl]; [cbn; now rewrite app_nil_r|].
  destruct (Z.leb_spec (Z.of_nat (length (b :: tl))) 0) as [Hle|_];
    [cbn [length] in Hle; lia|].
  unfold bind, on_stdout. cbn [stdout stderr].
  rewrite Write_Buffer. cbn [w_ snd].
  rewrite Z.ltb_irrefl, Z.eqb_refl. reflexivity.
Qed.

Lemma run_Buffer gzip_compress esw flags raw (o : Buffer) d :
  run (E := unit) gzip_compress esw flags (raw, None)
      {| stdout := o; stderr := d |} =
  (0, {| stdout := o ++ output gzip_compress flags raw; stderr := d |}).
Proof.
  unfold run, main, output, package_clause, var_literal, var_plain.
  destruct flags as [pkg var gz]. cbn [packageFlag varFlag gzipFlag].
  destruct gz; cbn [negb];
    unfold bind, ret, Printf, on_stdout, wwrite, Buffer_Writer;
    cbn [stdout stderr snd]; rewrite ?Execute_Buffer; cbn [stdout stderr snd];
    rewrite io_Copy_Buffer; cbn [stdout stderr snd];
    repeat rewrite <- app_assoc; reflexivity.
Qed.

(** *** The four escaped bytes, wherever they are *)

Lemma encode_special_at pre b post :
  special b = true ->
  encode (pre ++ b :: post) = encode pre ++ fst (chunk [b]) ++ encode post.
Proof.
  intros Hs. rewrite (encode_sync _ _ _ (special_not_cont _ Hs)). f_equal.
  rewrite encode_cons.
  destruct b; try discriminate Hs; reflexivity.
Qed.

(** *** Continuation bytes and the byte order mark *)

Lemma lead_cont b : is_cont b = true -> lead b = None /\ first b = xx.
Proof. destruct b; cbn; intros Hc; try discriminate Hc; split; reflexivity. Qed.

Lemma encode_cont b post :
  is_cont b = true -> encode (b :: post) = hex_escape b ++ encode post.
Proof.
  intros Hc. rewrite encode_cons.
  assert (Hs : special b = false).
  { pose proof (is_cont_plain _ Hc) as Hp. unfold plain in Hp.
    now destruct (special b). }
  rewrite (chunk_default _ _ Hs), DecodeRune_cons.
  destruct (lead_cont _ Hc) as [-> ->]. reflexivity.
Qed.

Lemma EncodeRune_byteOrderMark : EncodeRune byteOrderMark = [xef; xbb; xbf].
Proof. reflexivity. Qed.

Lemma encode_bom post :
  encode ([xef; xbb; xbf] ++ post) =
  hex_escape xef ++ hex_escape xbb ++ hex_escape xbf ++ encode post.
Proof.
  cbn [app]. rewrite encode_cons.
  rewrite (chunk_default xef _ eq_refl).
  rewrite (decoded_DecodeRune _ _ _
             (decoded3 xef xbb xbf post _ eq_refl eq_refl eq_refl)).
  change (rune3 xef xbb xbf) with byteOrderMark.
  cbn [negb andb fst snd skipn Z.eqb byteOrderMark RuneError Pos.eqb].
  rewrite (encode_cont xbb _ eq_refl), (encode_cont xbf _ eq_refl).
  reflexivity.
Qed.

Lemma decoded_of_valid u r : valid_utf8_unit u r -> decoded u r (length u).
Proof.
  intros (Hu & Hd & Hne).
  destruct (DecodeRune_decoded u r (length u) Hu Hd) as [[-> Hl]|Hdec];
    [|exact Hdec].
  rewrite Hl in Hne. congruence.
Qed.

Lemma encode_valid_unit pre u post r :
  valid_utf8_unit u r ->
  r <> byteOrderMark -> r <> RuneError ->
  (length u = 1%nat -> special (hd x00 u) = false) ->
  encode (pre ++ u ++ post) = encode pre ++ u ++ encode post.
Proof.
  intros Hv Hm Hr H1.
  pose proof (decoded_of_valid _ _ Hv) as Hd.
  destruct (decoded_shape _ _ _ Hd)
    as (p0 & cont & rest & Hp & Hk & Hc0 & Hc & _ & Hlead).
  assert (Hs : special (hd x00 u) = false).
  { destruct cont as [|c cont].
    - apply H1. exact Hk.
    - rewrite Hp. cbn [hd].
      destruct (special p0) eqn:Hsp; [|reflexivity].
      assert (Hge : 0xC2 <= b2z p0) by (apply Hlead; discriminate).
      destruct p0; try discriminate Hsp; vm_compute in Hge;
        exfalso; apply Hge; reflexivity. }
  rewrite <- (encode_unit u r post Hd Hs Hr Hm).
  rewrite Hp at 1 2. cbn [app]. apply encode_sync. exact Hc0.
Qed.

Lemma generate_output gz flags raw : generate gz flags raw = output gz flags raw.
Proof. unfold generate. now rewrite run_Buffer. Qed.

Lemma render_gzipPrologue var :
  render gzipPrologue var = prologue_imports ++ init_func var.
Proof.
  unfold init_func. cbn [render gzipPrologue flat_map].
  now rewrite app_nil_r, <- !app_assoc.
Qed.

(** *** [EncodeRune] and [DecodeRune]: bit operations as arithmetic *)

Lemma land_zero_mul hi lo k :
  0 <= k -> 0 <= lo < 2 ^ k -> Z.land (hi * 2 ^ k) lo = 0.
Proof.
  intros Hk Hlo. apply Z.bits_inj'. intros i Hi.
  rewrite Z.land_spec, Z.bits_0.
  destruct (Z.lt_ge_cases i k) as [Hlt|Hge].
  - rewrite Z.mul_pow2_bits_low by assumption. reflexivity.
  - destruct (Z.eq_dec lo 0) as [->|Hne].
    + rewrite Z.bits_0. apply andb_false_r.
    + rewrite (Z.bits_above_log2 lo i); [apply andb_false_r | lia |].
      apply Z.log2_lt_pow2; [lia|].
      apply Z.lt_le_trans with (2 ^ k); [lia|].
      apply Z.pow_le_mono_r; lia.
Qed.

(** Or-ing low bits into a multiple of a power of two adds them. *)
Lemma lor_low x lo k :
  0 <= k -> x mod 2 ^ k = 0 -> 0 <= lo < 2 ^ k -> Z.lor x lo = x + lo.
Proof.
  intros Hk Hx Hlo.
  assert (Hp : 0 < 2 ^ k) by (apply Z.pow_pos_nonneg; lia).
  rewrite (Z.div_mod x (2 ^ k)) at 1 2 by lia.
  rewrite Hx, Z.add_0_r, (Z.mul_comm (2 ^ k)).
  rewrite <- Z.lxor_lor by (now apply land_zero_mul).
  now rewrite <- Z.add_nocarry_lxor by (now apply land_zero_mul).
Qed.

Lemma land_maskx x : Z.land x maskx = x mod 64.
Proof. exact (Z.land_ones x 6 ltac:(lia)). Qed.

Lemma land_mask2 x : Z.land x mask2 = x mod 32.
Proof. exact (Z.land_ones x 5 ltac:(lia)). Qed.

Lemma land_mask3 x : Z.land x mask3 = x mod 16.
Proof. exact (Z.land_ones x 4 ltac:(lia)). Qed.

Lemma land_mask4 x : Z.land x mask4 = x mod 8.
Proof. exact (Z.land_ones x 3 ltac:(lia)). Qed.

Ltac divmod := Z.div_mod_to_equations; lia.

(** The bytes [EncodeRune] builds. *)
Lemma cont_byte x : b2z (z2b (Z.lor tx (Z.land x maskx))) = 128 + x mod 64.
Proof.
  rewrite b2z_z2b, land_maskx.
  rewrite (lor_low tx (x mod 64) 6) by (unfold tx; divmod).
  unfold tx. divmod.
Qed.

Lemma lead_byte t y k :
  0 <= k -> t mod 2 ^ k = 0 -> 0 <= y < 2 ^ k -> 0 <= t -> t + 2 ^ k <= 256 ->
  b2z (z2b (Z.lor t y)) = t + y.
Proof.
  intros Hk Ht Hy H0 H256. rewrite b2z_z2b, (lor_low t y k) by assumption.
  apply Z.mod_small. lia.
Qed.

Lemma lead_by_value p0 :
  lead p0 =
  let c := b2z p0 in
  if (0xC2 <=? c) && (c <=? 0xDF) then Some (2%nat, {| lo := locb; hi := hicb |})
  else if c =? 0xE0 then Some (3%nat, {| lo := 0xA0; hi := hicb |})
  else if c =? 0xED then Some (3%nat, {| lo := locb; hi := 0x9F |})
  else if (0xE1 <=? c) && (c <=? 0xEF)
       then Some (3%nat, {| lo := locb; hi := hicb |})
  else if c =? 0xF0 then Some (4%nat, {| lo := 0x90; hi := hicb |})
  else if c =? 0xF4 then Some (4%nat, {| lo := locb; hi := 0x8F |})
  else if (0xF1 <=? c) && (c <=? 0xF3)
       then Some (4%nat, {| lo := locb; hi := hicb |})
  else None.
Proof. destruct p0; reflexivity. Qed.

Lemma in_range_by_value a b :
  lo a <= b2z b <= hi a -> in_range a b = true.
Proof.
  intros [H1 H2]. unfold in_range.
  apply andb_true_iff; split; now apply Z.leb_le.
Qed.

Lemma is_cont_by_value b : 128 <= b2z b <= 191 -> is_cont b = true.
Proof.
  intros [H1 H2]. unfold is_cont, locb, hicb.
  apply andb_true_iff; split; now apply Z.leb_le.
Qed.

Ltac zcase_dm :=
  match goal with
  | |- context [Z.ltb ?a ?b] => destruct (Z.ltb_spec a b)
  | |- context [Z.leb ?a ?b] => destruct (Z.leb_spec a b)
  | |- context [Z.eqb ?a ?b] => destruct (Z.eqb_spec a b)
  end; cbn [orb andb negb]; try (exfalso; divmod).

Lemma decoded_encode1 r :
  0 <= r <= 0x7F -> decoded [z2b r] r 1.
Proof.
  intros Hr.
  assert (Hb : b2z (z2b r) = r) by (rewrite b2z_z2b; divmod).
  rewrite <- Hb at 2. constructor. rewrite Hb. unfold RuneSelf. lia.
Qed.

Lemma decoded_encode2 r :
  0x80 <= r <= 0x7FF ->
  decoded [z2b (Z.lor t2 (Z.shiftr r 6)); z2b (Z.lor tx (Z.land r maskx))] r 2.
Proof.
  intros Hr. rewrite Z.shiftr_div_pow2 by lia.
  set (p0 := z2b _). set (b1 := z2b _).
  assert (Hp0 : b2z p0 = 192 + r / 2 ^ 6)
    by (apply (lead_byte t2 _ 6); unfold t2; divmod).
  assert (Hb1 : b2z b1 = 128 + r mod 64) by apply cont_byte.
  assert (Hval : rune2 p0 b1 = r).
  { unfold rune2.
    rewrite Hp0, Hb1, land_mask2, land_maskx, Z.shiftl_mul_pow2 by lia.
    rewrite (lor_low _ _ 6) by divmod. divmod. }
  rewrite <- Hval.
  apply (decoded2 _ _ _ {| lo := locb; hi := hicb |}).
  - rewrite lead_by_value, Hp0. cbv zeta. repeat zcase_dm. reflexivity.
  - apply in_range_by_value. cbn [lo hi]. unfold locb, hicb. rewrite Hb1. divmod.
Qed.

Lemma decoded_encode3 r :
  0x800 <= r < 0xD800 \/ 0xDFFF < r <= 0xFFFF -> decoded (encode3 r) r 3.
Proof.
  intros Hr. unfold encode3. rewrite !Z.shiftr_div_pow2 by lia.
  set (p0 := z2b _). set (b1 := z2b _). set (b2 := z2b _).
  assert (Hp0 : b2z p0 = 224 + r / 2 ^ 12)
    by (apply (lead_byte t3 _ 4); unfold t3; divmod).
  assert (Hb1 : b2z b1 = 128 + (r / 2 ^ 6) mod 64) by apply cont_byte.
  assert (Hb2 : b2z b2 = 128 + r mod 64) by apply cont_byte.
  assert (Hval : rune3 p0 b1 b2 = r).
  { unfold rune3.
    rewrite Hp0, Hb1, Hb2, land_mask3, !land_maskx, !Z.shiftl_mul_pow2 by lia.
    rewrite (lor_low (_ * 2 ^ 12) _ 12) by divmod.
    rewrite (lor_low (_ + _) _ 6) by divmod. divmod. }
  rewrite <- Hval.
  assert (Ha : exists a, lead p0 = Some (3%nat, a) /\ in_range a b1 = true).
  { rewrite lead_by_value, Hp0. cbv zeta.
    repeat zcase_dm; eexists; (split; [reflexivity|]);
      apply in_range_by_value; cbn [lo hi]; unfold locb, hicb;
      rewrite Hb1; divmod. }
  destruct Ha as (a & Hl & Hi).
  apply (decoded3 _ _ _ _ a Hl Hi).
  apply is_cont_by_value. rewrite Hb2. divmod.
Qed.

Lemma decoded_encode4 r :
  0xFFFF < r <= 0x10FFFF ->
  decoded [z2b (Z.lor t4 (Z.shiftr r 18));
           z2b (Z.lor tx (Z.land (Z.shiftr r 12) maskx));
           z2b (Z.lor tx (Z.land (Z.shiftr r 6) maskx));
           z2b (Z.lor tx (Z.land r maskx))] r 4.
Proof.
  intros Hr. rewrite !Z.shiftr_div_pow2 by lia.
  set (p0 := z2b _). set (b1 := z2b _). set (b2 := z2b _). set (b3 := z2b _).
  assert (Hp0 : b2z p0 = 240 + r / 2 ^ 18)
    by (apply (lead_byte t4 _ 3); unfold t4; divmod).
  assert (Hb1 : b2z b1 = 128 + (r / 2 ^ 12) mod 64) by apply cont_byte.
  assert (Hb2 : b2z b2 = 128 + (r / 2 ^ 6) mod 64) by apply cont_byte.
  assert (Hb3 : b2z b3 = 128 + r mod 64) by apply cont_byte.
  assert (Hval : rune4 p0 b1 b2 b3 = r).
  { unfold rune4.
    rewrite Hp0, Hb1, Hb2, Hb3, land_mask4, !land_maskx, !Z.shiftl_mul_pow2
      by lia.
    rewrite (lor_low (_ * 2 ^ 18) _ 18) by divmod.
    rewrite (lor_low (_ * 2 ^ 18 + _) _ 12) by divmod.
    rewrite (lor_low (_ + _) _ 6) by divmod. divmod. }
  rewrite <- Hval.
  assert (Ha : exists a, lead p0 = Some (4%nat, a) /\ in_range a b1 = true).
  { rewrite lead_by_value, Hp0. cbv zeta.
    repeat zcase_dm; eexists; (split; [reflexivity|]);
      apply in_range_by_value; cbn [lo hi]; unfold locb, hicb;
      rewrite Hb1; divmod. }
  destruct Ha as (a & Hl & Hi).
  apply (decoded4 _ _ _ _ _ a Hl Hi); apply is_cont_by_value.
  - rewrite Hb2. divmod.
  - rewrite Hb3. divmod.
Qed.

(** [DecodeRune] reads back what [EncodeRune] wrote for a valid rune. *)
Lemma decoded_EncodeRune r :
  ValidRune r = true -> decoded (EncodeRune r) r (length (EncodeRune r)).
Proof.
  intros Hv.
  assert (Hr : 0 <= r < 0xD800 \/ 0xDFFF < r <= 0x10FFFF).
  { revert Hv. unfold ValidRune, surrogateMin, surrogateMax, MaxRune.
    repeat zcase; intros Hv; try discriminate Hv; lia. }
  clear Hv. unfold EncodeRune, rune1Max, rune2Max, rune3Max, MaxRune,
    surrogateMin, surrogateMax.
  repeat zcase; cbn [length].
  all: first [ apply decoded_encode1; lia | apply decoded_encode2; lia
             | apply decoded_encode3; lia | apply decoded_encode4; lia ].
Qed.

Lemma valid_EncodeRune r :
  ValidRune r = true -> valid_utf8_unit (EncodeRune r) r.
Proof.
  intros Hv. pose proof (decoded_EncodeRune r Hv) as Hd.
  repeat split.
  - intros Hnil. rewrite Hnil in Hd. inversion Hd.
  - now apply decoded_DecodeRune.
  - intros Heq. injection Heq as -> Hlen.
    vm_compute in Hlen. discriminate Hlen.
Qed.

Lemma special_value b :
  special b = true ->
  b2z b = 0x5C \/ b2z b = 0x22 \/ b2z b = 0x0A \/ b2z b = 0.
Proof.
  destruct b; cbn [special]; intros Hs; try discriminate Hs; cbv; tauto.
Qed.

Lemma encode_valid_rune pre post r :
  ValidRune r = true ->
  r <> byteOrderMark -> r <> RuneError ->
  r <> 0x5C -> r <> 0x22 -> r <> 0x0A -> r <> 0 ->
  encode (pre ++ EncodeRune r ++ post)
  = encode pre ++ EncodeRune r ++ encode post.
Proof.
  intros Hv Hm Hr H5c H22 H0a H00.
  apply (encode_valid_unit pre (EncodeRune r) post r
           (valid_EncodeRune r Hv) Hm Hr).
  unfold EncodeRune, encode3.
  repeat match goal with
         | |- context [if ?c then _ else _] => destruct c eqn:?
         end; cbn [length hd]; intros Hlen; try discriminate Hlen.
  match goal with
  | Hc : (_ && _)%bool = true |- _ => apply andb_true_iff in Hc as [Hlo Hhi]
  end.
  apply Z.leb_le in Hlo, Hhi. unfold rune1Max in Hhi.
  destruct (special (z2b r)) eqn:Hs; [|reflexivity].
  apply special_value in Hs. rewrite b2z_z2b, Z.mod_small in Hs by lia. lia.
Qed.

(** ** The scenarios of the specification *)

Example scenario_empty_input :
  generate (fun _ b => b)
           {| packageFlag := str "p"; varFlag := str "v"; gzipFlag := false |}
           []
  = str "package p" ++ nl ++ nl
    ++ str "var v = []byte(" ++ quote ++ quote ++ str ")" ++ nl.
Proof. reflexivity. Qed.

Example scenario_newline_and_quote :
  encode (str "hello" ++ nl ++ str "world" ++ quote ++ str "!")
  = str "hello\nworld" ++ [x5c; x22] ++ str "!".
Proof. reflexivity. Qed.

Example scenario_three_byte_character :
  encode (EncodeRune 0x20AC) = [xe2; x82; xac].
Proof. reflexivity. Qed.

Example scenario_lone_continuation_byte : encode [x80] = str "\x80".
Proof. reflexivity. Qed.

Example scenario_gzip_through_the_literal :
  forall (gz : Z -> list byte -> list byte) (raw : list byte),
    unquote_body (encode (gz BestCompression raw))
    = Some (gz BestCompression raw).
Proof.
  intros gz raw. unfold unquote_body. apply unquote_encode_fuel. apply le_n.
Qed.

(** * The properties of the specification *)

(** C1. For every byte sequence [B], the empty one and those holding any
    of the 256 byte values included, reading the text the encoder
    produces for [B] as the body of a Go interpreted string literal gives
    back exactly [B]. *)
Theorem C1_round_trip (B : list byte) : unquote_body (encode B) = Some B.
Proof. unfold unquote_body. apply unquote_encode_fuel. apply le_n. Qed.

(** C2. For every input, the text of the encoder holds no newline byte,
    no NUL byte, no double quote outside an escape sequence and nowhere
    the three bytes of the byte order mark U+FEFF; a newline, a double
    quote, a NUL byte and a byte order mark of the input are each
    replaced by escape sequences, wherever they stand in the input.
    (A Rocq string has no escapes: [str "\n"] is a backslash and the
    letter n.) *)
Theorem C2_legality :
  (forall B,
      ~ In x0a (encode B) /\ ~ In x00 (encode B)
      /\ no_raw_quote false (encode B) = true
      /\ forall pre post,
          encode B <> pre ++ EncodeRune byteOrderMark ++ post)
  /\ (forall pre post,
         encode (pre ++ x0a :: post) = encode pre ++ str "\n" ++ encode post)
  /\ (forall pre post,
         encode (pre ++ x22 :: post)
         = encode pre ++ [x5c; x22] ++ encode post)
  /\ (forall pre post,
         encode (pre ++ x00 :: post)
         = encode pre ++ str "\x00" ++ encode post)
  /\ (forall pre post,
         encode (pre ++ EncodeRune byteOrderMark ++ post)
         = encode pre ++ str "\xef\xbb\xbf" ++ encode post).
Proof.
  split; [|repeat split].
  - intros B. destruct (encode_invariants B) as (Hnl & Hnul & Hq & Hb & _).
    repeat split; auto. rewrite EncodeRune_byteOrderMark.
    now apply has_bom_infix.
  - intros pre post. exact (encode_special_at pre x0a post eq_refl).
  - intros pre post. exact (encode_special_at pre x22 post eq_refl).
  - intros pre post. exact (encode_special_at pre x00 post eq_refl).
  - intros pre post. rewrite EncodeRune_byteOrderMark.
    change ([xef; xbb; xbf] ++ post) with (xef :: ([xbb; xbf] ++ post)).
    rewrite (encode_sync pre xef _ eq_refl).
    change (xef :: ([xbb; xbf] ++ post)) with ([xef; xbb; xbf] ++ post).
    now rewrite encode_bom.
Qed.

(** Where the code keeps C3. The UTF-8 encoding of a Unicode scalar
    value that is neither the byte order mark U+FEFF nor U+FFFD (the
    value of [utf8.RuneError]) nor one of the four escaped ASCII
    characters is copied to the output as a whole, wherever it stands in
    the input: none of its bytes is escaped on its own. *)
Theorem C3_valid_unit_copied (pre post : list byte) (r : Z) :
  ValidRune r = true ->
  r <> byteOrderMark -> r <> RuneError ->
  r <> 0x5C -> r <> 0x22 -> r <> 0x0A -> r <> 0 ->
  encode (pre ++ EncodeRune r ++ post)
  = encode pre ++ EncodeRune r ++ encode post.
Proof. apply encode_valid_rune. Qed.

Lemma C3_valid_unit_copied_witness :
  EncodeRune 0x20AC = [xe2; x82; xac]
  /\ encode (str "a" ++ EncodeRune 0x20AC ++ str "b")
     = encode (str "a") ++ EncodeRune 0x20AC ++ encode (str "b").
Proof.
  split; [reflexivity|].
  apply (C3_valid_unit_copied (str "a") (str "b") 0x20AC);
    [reflexivity | discriminate ..].
Defined.

(** C3, where the code breaks it. U+FFFD is a Unicode scalar value and
    not the byte order mark; its UTF-8 encoding, the three bytes
    EF BF BD, is valid, and [DecodeRune] reads it as one unit of width 3.
    The guard of [Write] compares the rune with [utf8.RuneError], whose
    value is U+FFFD, and not the width, which is 1 for a failed decoding
    only: it takes the valid unit for a failure, and the encoder escapes
    each of the three bytes on its own. *)
Theorem C3_U_FFFD_escaped :
  ValidRune 0xFFFD = true
  /\ 0xFFFD <> byteOrderMark
  /\ EncodeRune 0xFFFD = [xef; xbf; xbd]
  /\ valid_utf8_unit (EncodeRune 0xFFFD) 0xFFFD
  /\ encode (EncodeRune 0xFFFD) = str "\xef\xbf\xbd"
  /\ encode ([] ++ EncodeRune 0xFFFD ++ [])
     <> encode [] ++ EncodeRune 0xFFFD ++ encode [].
Proof.
  split; [reflexivity|]. split; [discriminate|]. split; [reflexivity|].
  split; [apply valid_EncodeRune; reflexivity|].
  split; [reflexivity|]. intros Heq. vm_compute in Heq. discriminate Heq.
Qed.

(** C8. For the input made of the single byte 0x00 the encoder writes
    exactly the four characters backslash, x, 0, 0, and every NUL byte of
    an input is replaced by these four characters. *)
Theorem C8_nul_escaped :
  encode [x00] = str "\x00"
  /\ forall pre post,
      encode (pre ++ x00 :: post) = encode pre ++ str "\x00" ++ encode post.
Proof.
  split; [reflexivity|].
  intros pre post. exact (encode_special_at pre x00 post eq_refl).
Qed.

(** C10. Read from the left, the output of the encoder is a sequence of
    escape sequences, each one of backslash-backslash, backslash-quote,
    backslash-n and backslash-x with two hexadecimal digits, and of bytes
    that are no backslash: every backslash that opens an escape opens one
    of these four. A backslash of the input is written as two
    backslashes, wherever it stands. *)
Theorem C10_backslashes :
  (forall B, escaped_text (encode B))
  /\ (forall pre post,
         encode (pre ++ x5c :: post) = encode pre ++ str "\\" ++ encode post).
Proof.
  split.
  - intros B. apply encode_invariants.
  - intros pre post. exact (encode_special_at pre x5c post eq_refl).
Qed.

(** C5, as the code has it. With [-gzip] the generator prints, after the
    package clause and in this order: the prologue, which is the import
    declaration followed by [func init], the initializer that
    decompresses the [_gzip] variable into the target variable; the
    declaration of the target variable without a value; and, last, the
    declaration of the [_gzip] variable with the literal of the
    compressed input. *)
Theorem C5_gzip_order (gz : Z -> list byte -> list byte)
        (pkg var raw : list byte) :
  generate gz {| packageFlag := pkg; varFlag := var; gzipFlag := true |} raw
  = package_clause pkg
    ++ (prologue_imports ++ init_func var)
    ++ var_plain var
    ++ var_literal (var ++ str "_gzip") (encode (gz BestCompression raw)).
Proof.
  rewrite generate_output. unfold output.
  cbn [packageFlag varFlag gzipFlag]. now rewrite render_gzipPrologue.
Qed.

(** C5, as stated, fails: the initializer is not printed last, after the
    two declarations; for the package p, the variable v and an empty
    input the order of the specification is not what is printed. *)
Lemma C5_counterexample :
  ~ (forall (gz : Z -> list byte -> list byte) (pkg var raw : list byte),
        generate gz {| packageFlag := pkg; varFlag := var; gzipFlag := true |}
                 raw
        = package_clause pkg
          ++ spec_gzip_layout var (encode (gz BestCompression raw))).
Proof.
  intros Hspec.
  specialize (Hspec (fun _ b => b) (str "p") (str "v") []).
  apply (f_equal (fun text => nth 63 text x00)) in Hspec.
  vm_compute in Hspec. discriminate Hspec.
Qed.

(** C6 fails on the code. With a standard output that has room for 29
    bytes only, the third write of the encoding of the input [data]
    fails; [Write] reports the error, [main] drops what [io.Copy]
    returns, and the process ends with status 0 and nothing on the error
    stream. *)
Theorem C6_write_error_dropped :
  let flags := {| packageFlag := str "p"; varFlag := str "v";
                  gzipFlag := false |} in
  let full_disk := {| written := []; room := 29; full := "ENOSPC"%string |} in
  snd (Write {| w_ := {| written := str "package p" ++ nl ++ nl
                                    ++ str "var v = []byte(" ++ quote;
                         room := 2; full := "ENOSPC"%string |} |}
             (str "data"))
  = (3, Some "ENOSPC"%string)
  /\ run (fun _ b => b) "short write"%string flags (str "data", None)
         {| stdout := full_disk; stderr := [] |}
     = (0, {| stdout := {| written := str "package p" ++ nl ++ nl
                                       ++ str "var v = []byte(" ++ quote
                                       ++ str "da";
                            room := 0; full := "ENOSPC"%string |};
              stderr := [] |}).
Proof. split; reflexivity. Qed.

(** C9. [Write] returns the full length of [data] whenever it returns
    no error, and it returns no error when no write to the underlying
    writer fails. When a write to the underlying writer fails, [Write]
    returns the error of that write, and the count returned includes the
    byte or the whole unit whose write failed: it is the length of the
    input less what follows that unit. Conversely, an error returned is
    the error of the last write: the input is [pre ++ unit ++ post], the
    loop reached [unit ++ post] without error, the write of the text for
    [unit] failed, and the count is the length of [pre ++ unit]. *)
Theorem C9_Write_result {E W : Type} {H : Writer E W}
        (w : writer W) (data : list byte) :
  let n := fst (snd (Write w data)) in
  let err := snd (snd (Write w data)) in
  (err = None -> n = Z.of_nat (length data))
  /\ ((forall w0 p, snd (snd (wwrite w0 p)) = None) -> err = None)
  /\ (forall k w0 b rest w1 m e,
         Write_loop k (w_ w) data None = (w0, b :: rest, None) ->
         wwrite w0 (fst (chunk (b :: rest))) = (w1, (m, Some e)) ->
         err = Some e /\ w_ (fst (Write w data)) = w1
         /\ n = Z.of_nat (length data)
                - Z.of_nat (length (skipn (snd (chunk (b :: rest)))
                                          (b :: rest))))
  /\ (forall e, err = Some e ->
       exists pre unit post k w0 m,
         data = pre ++ unit ++ post /\ unit <> []
         /\ Write_loop k (w_ w) data None = (w0, unit ++ post, None)
         /\ snd (chunk (unit ++ post)) = length unit
         /\ wwrite w0 (fst (chunk (unit ++ post)))
            = (w_ (fst (Write w data)), (m, Some e))
         /\ n = Z.of_nat (length pre + length unit)).
Proof.
  cbv zeta.
  assert (Hforward : forall k w0 b rest w1 m e,
         Write_loop k (w_ w) data None = (w0, b :: rest, None) ->
         wwrite w0 (fst (chunk (b :: rest))) = (w1, (m, Some e)) ->
         snd (snd (Write w data)) = Some e /\ w_ (fst (Write w data)) = w1
         /\ fst (snd (Write w data))
            = Z.of_nat (length data)
              - Z.of_nat (length (skipn (snd (chunk (b :: rest)))
                                        (b :: rest)))).
  { intros k w0 b rest w1 m e Hrun Hw.
    rewrite (Write_failing_write w data k w0 b rest w1 m e Hrun Hw).
    repeat split. }
  revert Hforward. unfold Write.
  destruct (Write_loop (length data) (w_ w) data None)
    as [[w' data'] err] eqn:Hrun.
  cbn [fst snd w_]. intros Hforward.
  assert (Hfail : forall e, err = Some e ->
       exists pre unit post k w0 m,
         data = pre ++ unit ++ post /\ unit <> []
         /\ Write_loop k (w_ w) data None = (w0, unit ++ post, None)
         /\ snd (chunk (unit ++ post)) = length unit
         /\ wwrite w0 (fst (chunk (unit ++ post))) = (w', (m, Some e))
         /\ Z.of_nat (length data) - Z.of_nat (length data')
            = Z.of_nat (length pre + length unit)).
  { intros e ->.
    destruct (Write_loop_failed _ _ _ _ _ _ Hrun)
      as (k & w0 & unit & m & Hk & Hu & Hl & Hw).
    destruct (Write_loop_suffix _ _ _ _ _ _ _ Hk) as [pre Hpre].
    exists pre, unit, data', k, w0, m. repeat split; auto.
    rewrite Hpre, !length_app. lia. }
  split; [|split; [|split]].
  - intros ->.
    rewrite (Write_loop_done _ _ _ _ _ _ _ (le_n _) Hrun eq_refl).
    cbn [length]. lia.
  - intros Hok. destruct err as [e|]; [|reflexivity].
    destruct (Hfail e eq_refl)
      as (_ & unit & post & _ & w0 & m & _ & _ & _ & _ & Hw & _).
    specialize (Hok w0 (fst (chunk (unit ++ post)))).
    rewrite Hw in Hok. discriminate Hok.
  - exact Hforward.
  - exact Hfail.
Qed.

Lemma C9_Write_result_witness :
  ((forall (w0 : Buffer) p,
       snd (snd (wwrite (Writer := Buffer_Writer unit) w0 p)) = None)
   /\ snd (snd (Write (E := unit) {| w_ := ([] : Buffer) |} (str "ab")))
      = None
   /\ fst (snd (Write (E := unit) {| w_ := ([] : Buffer) |} (str "ab"))) = 2)
  /\ (Write_loop 2 {| written := []; room := 3; full := "ENOSPC"%string |}
                 (str "ab" ++ EncodeRune 0x20AC ++ str "c") None
      = ({| written := str "ab"; room := 1; full := "ENOSPC"%string |},
         EncodeRune 0x20AC ++ str "c", None)
      /\ snd (Write {| w_ := {| written := []; room := 3;
                                full := "ENOSPC"%string |} |}
                    (str "ab" ++ EncodeRune 0x20AC ++ str "c"))
         = (5, Some "ENOSPC"%string)).
Proof.
  split.
  - pose proof (C9_Write_result (E := unit) {| w_ := ([] : Buffer) |}
                  (str "ab")) as (Hlen & Hok & _).
    assert (Hall : forall (w0 : Buffer) p,
               snd (snd (wwrite (Writer := Buffer_Writer unit) w0 p)) = None)
      by reflexivity.
    split; [exact Hall|]. split; [exact (Hok Hall)|].
    exact (Hlen (Hok Hall)).
  - pose proof (C9_Write_result
                  {| w_ := {| written := []; room := 3;
                              full := "ENOSPC"%string |} |}
                  (str "ab" ++ EncodeRune 0x20AC ++ str "c"))
      as (_ & _ & Hforward & _).
    split; [reflexivity|].
    destruct (Hforward 2%nat
                {| written := str "ab"; room := 1; full := "ENOSPC"%string |}
                xe2 ([x82; xac] ++ str "c")
                {| written := str "ab" ++ [xe2]; room := 0;
                   full := "ENOSPC"%string |}
                1 "ENOSPC"%string eq_refl eq_refl) as (Herr & _ & Hn).
    rewrite (surjective_pairing (snd (Write _ _))), Herr, Hn. reflexivity.
Defined.

(** * Further properties of the code *)

(** ** The count of [Write] and [io.Copy] *)

Lemma Write_count_bounds {E W : Type} {H : Writer E W}
      (w : writer W) (data : list byte) :
  0 <= fst (snd (Write w data)) <= Z.of_nat (length data)
  /\ (fst (snd (Write w data)) < Z.of_nat (length data) ->
      snd (snd (Write w data)) <> None).
Proof.
  unfold Write.
  destruct (Write_loop (length data) (w_ w) data None)
    as [[w' data'] err] eqn:Hrun.
  cbn [fst snd].
  destruct (Write_loop_suffix _ _ _ _ _ _ _ Hrun) as [pre Hpre].
  assert (Hlen : length data = (length pre + length data')%nat)
    by (rewrite Hpre at 1; apply length_app).
  split; [lia|].
  intros Hlt Herr.
  rewrite (Write_loop_done _ _ _ _ _ _ _ (le_n _) Hrun Herr) in Hlt.
  cbn [length] in Hlt. lia.
Qed.



Section Status.

Context {E W : Type} {H : Writer E W} {HE : Errno E}.
Variable esw : E.

Lemma io_Copy_Write (raw : list byte) (s : @World E W) :
  io_Copy esw raw s =
  match raw with
  | [] => Continue (0, None) s
  | _ :: _ =>
    let res := Write {| w_ := stdout s |} raw in
    let s' := {| stdout := w_ (fst res); stderr := stderr s |} in
    match snd (snd res) with
    | Some e => if is_EPIPE e then sigpipe s' else Continue (snd res) s'
    | None => Continue (snd res) s'
    end
  end.
Proof.
  unfold io_Copy. destruct raw as [|b tl]; [reflexivity|].
  set (raw := b :: tl).
  assert (Hpos : (Z.of_nat (length raw) <=? 0) = false)
    by (apply Z.leb_gt; cbn [raw length]; lia).
  rewrite Hpos. unfold bind, on_stdout, ret, sigpipe. cbv zeta.
  destruct (Write_count_bounds {| w_ := stdout s |} raw) as [Hb Hshort].
  destruct (Write {| w_ := stdout s |} raw) as [w' [m err]].
  cbn [fst snd] in *.
  assert (Hm : (Z.of_nat (length raw) <? m) = false) by (apply Z.ltb_ge; lia).
  destruct err as [e|].
  - destruct (is_EPIPE e); [reflexivity|]. rewrite Hm.
    destruct (negb (m =? Z.of_nat (length raw))); reflexivity.
  - rewrite Hm.
    destruct (Z.eqb_spec m (Z.of_nat (length raw))) as [Heq|Hne];
      [reflexivity|].
    exfalso. apply Hshort; [lia|reflexivity].
Qed.


End Status.

(** X1. The count [Write] returns is between 0 and the length of its
    input, so [io.Copy], which for a [bytes.Reader] is one call of
    [Write] on the whole input, neither panics on an invalid count nor
    reports [io.ErrShortWrite]: it returns exactly what [Write] returns
    and leaves the standard output as [Write] leaves it. It does not
    return in one case only: when the error of [Write] is [EPIPE], the
    failed write to the standard output has ended the process by
    SIGPIPE. For an empty input it returns 0 and no error without
    calling [Write]. *)
Theorem X1_io_Copy_is_Write {E W : Type} {H : Writer E W} {HE : Errno E}
        (esw : E) (b : byte) (tl : list byte) (s : @World E W) :
  let res := Write {| w_ := stdout s |} (b :: tl) in
  let s' := {| stdout := w_ (fst res); stderr := stderr s |} in
  0 <= fst (snd res) <= Z.of_nat (length (b :: tl))
  /\ io_Copy esw (b :: tl) s
     = match snd (snd res) with
       | Some e => if is_EPIPE e then sigpipe s' else Continue (snd res) s'
       | None => Continue (snd res) s'
       end
  /\ io_Copy esw [] s = Continue (0, None) s.
Proof.
  cbv zeta. split; [apply Write_count_bounds|].
  split; [apply (io_Copy_Write esw (b :: tl)) | reflexivity].
Qed.

(** ** The size of the literal *)

Lemma emits_length data out k :
  emits data out k ->
  (k <= length out <= 4 * k)%nat /\ (length out <= 4)%nat.
Proof.
  intros He. pose proof (emits_size _ _ _ He) as [Hk _].
  destruct He as [tl|tl|tl|tl|b tl r k Hs Hd Hr Hm|b tl r k Hs Hd Hr];
    cbn [length hex_escape]; try lia.
  rewrite length_firstn.
  destruct (decoded_shape _ _ _ Hd) as (p0 & cont & rest & _ & Hkk & _).
  inversion Hd; subst; cbn [length] in *; lia.
Qed.

(** X2. The text the encoder writes is at least as long as its input and
    at most four times as long. *)
Theorem X2_encode_length (B : list byte) :
  (length B <= length (encode B) <= 4 * length B)%nat.
Proof.
  pattern B, (encode B). apply encode_ind; clear B.
  - cbn. lia.
  - intros data out k He IH.
    pose proof (emits_size _ _ _ He) as [Hk _].
    pose proof (emits_length _ _ _ He) as [Hout _].
    rewrite length_app. rewrite length_skipn in IH. lia.
Qed.

(** ** The writes to the underlying writer *)



(** ** An input written in several calls of [Write] *)

Lemma unquote_loop_fuel f : forall s v f',
  unquote_loop f s = Some v -> (f <= f')%nat -> unquote_loop f' s = Some v.
Proof.
  induction f as [|f IH]; intros s v f' Hrun Hle.
  - destruct s; [|discriminate Hrun]. destruct f'; exact Hrun.
  - destruct f' as [|f']; [lia|].
    destruct s as [|c t]; [exact Hrun|].
    destruct (special c) eqn:Hs.
    + destruct c; try discriminate Hs; cbn [unquote_loop] in *;
        try discriminate Hrun.
      destruct (escape t) as [[v0 rest]|]; [|discriminate Hrun].
      destruct (unquote_loop f rest) as [v1|] eqn:Hr;
        [|unfold option_map in Hrun; discriminate Hrun].
      rewrite (IH rest v1 f' Hr ltac:(lia)). exact Hrun.
    + rewrite (unquote_loop_default f _ _ Hs) in Hrun.
      rewrite (unquote_loop_default f' _ _ Hs).
      destruct (b2z c <? RuneSelf).
      * destruct (unquote_loop f t) as [v1|] eqn:Hr;
          [|unfold option_map in Hrun; discriminate Hrun].
        rewrite (IH t v1 f' Hr ltac:(lia)). exact Hrun.
      * destruct (DecodeRune (c :: t)) as [r width].
        destruct ((r =? RuneError) && Nat.eqb width 1); [discriminate Hrun|].
        destruct (r =? byteOrderMark); [discriminate Hrun|].
        destruct (unquote_loop f (skipn width (c :: t))) as [v1|] eqn:Hr;
          [|unfold option_map in Hrun; discriminate Hrun].
        rewrite (IH _ v1 f' Hr ltac:(lia)). exact Hrun.
Qed.

Lemma unquote_encode_app data t v :
  unquote_body t = Some v ->
  forall f, (length (encode data ++ t) <= f)%nat ->
            unquote_loop f (encode data ++ t) = Some (data ++ v).
Proof.
  intros Ht. pattern data, (encode data). apply encode_ind; clear data.
  - intros f Hf. cbn [app] in *. exact (unquote_loop_fuel _ _ _ _ Ht Hf).
  - intros data out k He IH f Hf.
    pose proof (emits_size _ _ _ He) as [Hk Hout].
    rewrite <- app_assoc in *.
    set (rest_out := encode (skipn k data) ++ t) in *.
    rewrite length_app in Hf.
    destruct f as [|f]; [destruct out; [congruence | cbn in Hf; lia]|].
    assert (Hrest : unquote_loop f rest_out = Some (skipn k data ++ v)).
    { apply IH. destruct out; [congruence | cbn in Hf; lia]. }
    destruct He as [tl|tl|tl|tl|b tl r k Hs Hd Hr Hm|b tl r k Hs Hd Hr];
      cbn [skipn] in *.
    + cbn. now rewrite Hrest.
    + cbn. now rewrite Hrest.
    + cbn. now rewrite Hrest.
    + cbn. now rewrite Hrest.
    + destruct (firstn_skipn_decoded _ _ _ rest_out Hd) as [Hfn Hsk].
      pose proof (decoded_DecodeRune _ _ _ (decoded_local _ _ _ rest_out Hd))
        as Hdec.
      destruct k as [|k]; [lia|].
      change (firstn (S k) (b :: tl) ++ rest_out)
        with (b :: (firstn k tl ++ rest_out)).
      rewrite (unquote_loop_default _ _ _ Hs).
      destruct (decoded_shape _ _ _ Hd)
        as (p0 & cont & rest & Hp & Hkk & _ & _ & Hc1 & Hc2).
      injection Hp as <- Htl.
      destruct (Z.ltb_spec (b2z b) RuneSelf) as [Hlt|Hge].
      * destruct cont as [|c cont].
        -- injection Hkk as ->. cbn [firstn app skipn] in *. now rewrite Hrest.
        -- assert (0xC2 <= b2z b) by (apply Hc2; discriminate).
           unfold RuneSelf in Hlt. lia.
      * change (b :: (firstn k tl ++ rest_out))
          with (firstn (S k) (b :: tl) ++ rest_out).
        rewrite Hdec.
        destruct (Z.eqb_spec r RuneError); [contradiction|].
        destruct (Z.eqb_spec r byteOrderMark); [contradiction|].
        cbn [andb]. rewrite Hfn, Hsk, Hrest. cbn [option_map].
        f_equal. rewrite app_assoc. f_equal. apply firstn_skipn.
    + unfold hex_escape. cbn [app unquote_loop]. rewrite escape_hex.
      rewrite Hrest. reflexivity.
Qed.

Lemma unquote_pieces (chunks : list (list byte)) :
  unquote_body (concat (map encode chunks)) = Some (concat chunks).
Proof.
  induction chunks as [|c cs IH]; [reflexivity|].
  cbn [map concat]. unfold unquote_body.
  apply (unquote_encode_app c _ _ IH). apply le_n.
Qed.

Lemma Writes_Buffer (chunks : list (list byte)) : forall o : Buffer,
  w_ (fold_left (fun w c => fst (Write (E := unit) w c)) chunks {| w_ := o |})
  = o ++ concat (map encode chunks).
Proof.
  induction chunks as [|c cs IH]; intros o; cbn [fold_left map concat].
  - now rewrite app_nil_r.
  - rewrite Write_Buffer. cbn [fst]. rewrite IH. now rewrite app_assoc.
Qed.

(** X3. When an input is written in several calls of [Write], cut at
    any places, the text that reaches a writer that accepts everything is
    the encodings of the pieces one after the other, and read as the body
    of a Go interpreted string literal it gives back the whole input. *)
Theorem X3_pieces_round_trip (chunks : list (list byte)) :
  let lit := w_ (fold_left (fun w c => fst (Write (E := unit) w c)) chunks
                           {| w_ := ([] : Buffer) |}) in
  lit = concat (map encode chunks)
  /\ unquote_body lit = Some (concat chunks).
Proof.
  cbv zeta. rewrite Writes_Buffer. cbn [app].
  split; [reflexivity | apply unquote_pieces].
Qed.

(** X4. Cutting the input in front of a byte that is not a continuation
    byte (0x80 to 0xBF), or at its end, does not change the text: the
    encoding of the whole is the encoding of the first part followed by
    that of the second. *)
Theorem X4_cut_between_units (a b : list byte) :
  (forall c rest, b = c :: rest -> is_cont c = false) ->
  encode (a ++ b) = encode a ++ encode b.
Proof.
  intros Hb. destruct b as [|c rest].
  - rewrite app_nil_r. change (encode []) with (@nil byte).
    now rewrite app_nil_r.
  - apply encode_sync. exact (Hb c rest eq_refl).
Qed.

Lemma X4_cut_between_units_witness :
  encode ([x61; xc3] ++ [xc3; xa9]) = encode [x61; xc3] ++ encode [xc3; xa9].
Proof.
  apply X4_cut_between_units.
  intros c rest Heq. injection Heq as <- _. reflexivity.
Defined.

Lemma encode_conts (c post : list byte) :
  forallb is_cont c = true ->
  encode (c ++ post) = flat_map hex_escape c ++ encode post.
Proof.
  induction c as [|b c IH]; intros Hc; [reflexivity|].
  cbn [forallb] in Hc. apply andb_prop in Hc as [Hb Hc].
  cbn [app flat_map]. rewrite (encode_cont _ _ Hb), (IH Hc).
  now rewrite app_assoc.
Qed.

Lemma encode_short_unit p0 cont r i :
  decoded (p0 :: cont) r (S (length cont)) ->
  (i < length cont)%nat ->
  encode (p0 :: firstn i cont) = hex_escape p0 ++ encode (firstn i cont).
Proof.
  intros Hd Hi.
  assert (Hs : special p0 = false).
  { destruct (decoded_shape _ _ _ Hd)
      as (q & c' & rest & Hp & Hkk & _ & _ & _ & Hc2).
    injection Hp as <- Hc.
    assert (Hge : 0xC2 <= b2z p0).
    { apply Hc2. intros ->. cbn [length] in Hkk. lia. }
    destruct p0; try reflexivity; vm_compute in Hge; exfalso; apply Hge;
      reflexivity. }
  assert (Hdec : DecodeRune (p0 :: firstn i cont) = (RuneError, 1%nat)).
  { rewrite DecodeRune_cons.
    inversion Hd as [q tl Hlt|q b1 tl a Hl Hr|q b1 b2 tl a Hl Hr Hc2
                     |q b1 b2 b3 tl a Hl Hr Hc2 Hc3]; subst;
      cbn [length] in *; try lia; rewrite Hl.
    - destruct i as [|i]; [reflexivity|lia].
    - destruct i as [|[|i]]; [reflexivity|reflexivity|lia].
    - destruct i as [|[|[|i]]]; [reflexivity|reflexivity|reflexivity|lia]. }
  rewrite encode_cons, (chunk_default _ _ Hs), Hdec.
  reflexivity.
Qed.

(** X5. A cut inside a unit of several bytes changes the text: when the
    bytes of a valid unit reach [Write] in two calls, the first ending
    after [i] of them, none of them is copied, each is written as a hex
    escape of its own. *)
Theorem X5_cut_inside_unit (u : list byte) (r : Z) (i : nat) :
  valid_utf8_unit u r ->
  (0 < i < length u)%nat ->
  encode (firstn i u) ++ encode (skipn i u) = flat_map hex_escape u.
Proof.
  intros Hv Hi. pose proof (decoded_of_valid _ _ Hv) as Hd.
  destruct (decoded_shape _ _ _ Hd)
    as (p0 & cont & rest & Hp & Hk & _ & Hc & _).
  assert (Hrest : rest = []).
  { apply length_zero_iff_nil. rewrite Hp in Hk. cbn [length] in Hk.
    rewrite length_app in Hk. lia. }
  subst rest. rewrite app_nil_r in Hp. subst u.
  cbn [length] in *.
  destruct i as [|i]; [lia|]. cbn [firstn skipn].
  assert (Hf : forallb is_cont (firstn i cont) = true).
  { rewrite forallb_forall in *. intros x Hx. apply Hc.
    rewrite <- (firstn_skipn i cont). apply in_or_app. now left. }
  assert (Hsk : forallb is_cont (skipn i cont) = true).
  { rewrite forallb_forall in *. intros x Hx. apply Hc.
    rewrite <- (firstn_skipn i cont). apply in_or_app. now right. }
  rewrite (encode_short_unit p0 cont r i Hd ltac:(lia)).
  pose proof (encode_conts (firstn i cont) [] Hf) as H1.
  pose proof (encode_conts (skipn i cont) [] Hsk) as H2.
  change (encode []) with (@nil byte) in H1, H2.
  rewrite !app_nil_r in H1. rewrite !app_nil_r in H2. rewrite H1, H2.
  cbn [flat_map]. rewrite <- app_assoc. f_equal.
  rewrite <- flat_map_app. now rewrite firstn_skipn.
Qed.

Lemma X5_cut_inside_unit_witness :
  encode (firstn 1 [xe2; x82; xac]) ++ encode (skipn 1 [xe2; x82; xac])
  = flat_map hex_escape [xe2; x82; xac].
Proof.
  apply (X5_cut_inside_unit _ 0x20AC).
  - repeat split; [discriminate | intros Heq; discriminate Heq].
  - cbn. lia.
Defined.

(** ** Texts and bytes *)

(** X6. A text that is the UTF-8 encoding of Unicode scalar values, none
    of them a backslash, a double quote, a newline, NUL, the byte order
    mark U+FEFF or U+FFFD, is written unchanged. *)
Theorem X6_valid_text_verbatim (rs : list Z) :
  Forall (fun r => ValidRune r = true
                   /\ r <> 0x5C /\ r <> 0x22 /\ r <> 0x0A /\ r <> 0
                   /\ r <> byteOrderMark /\ r <> RuneError) rs ->
  encode (flat_map EncodeRune rs) = flat_map EncodeRune rs.
Proof.
  induction 1 as [|r rs (Hv & H1 & H2 & H3 & H4 & H5 & H6) _ IH];
    [reflexivity|].
  cbn [flat_map].
  pose proof (encode_valid_rune [] (flat_map EncodeRune rs) r
                                Hv H5 H6 H1 H2 H3 H4) as Heq.
  cbn [app] in Heq. rewrite Heq, IH. reflexivity.
Qed.

Lemma X6_valid_text_verbatim_witness :
  encode (flat_map EncodeRune [0x61; 0xE9; 0x20AC; 0x1F600])
  = flat_map EncodeRune [0x61; 0xE9; 0x20AC; 0x1F600].
Proof.
  apply X6_valid_text_verbatim.
  repeat constructor; try reflexivity; intros Heq; discriminate Heq.
Defined.

Lemma encode_replacement post :
  encode ([xef; xbf; xbd] ++ post) =
  hex_escape xef ++ hex_escape xbf ++ hex_escape xbd ++ encode post.
Proof.
  cbn [app]. rewrite encode_cons.
  rewrite (chunk_default xef _ eq_refl).
  rewrite (decoded_DecodeRune _ _ _
             (decoded3 xef xbf xbd post _ eq_refl eq_refl eq_refl)).
  change (rune3 xef xbf xbd) with RuneError.
  cbn [negb andb fst snd skipn Z.eqb byteOrderMark RuneError Pos.eqb].
  rewrite (encode_cont xbf _ eq_refl), (encode_cont xbd _ eq_refl).
  reflexivity.
Qed.

(** X10. The character U+FFFD in its valid encoding, the bytes EF BF BD,
    is decoded as one unit of width 3 whose value is [utf8.RuneError],
    and [Write] takes that value for a failed decoding: wherever the
    three bytes stand in the input, each is written as a hex escape.
    (A Rocq string has no escapes: the text below is twelve
    characters.) *)
Theorem X10_replacement_character_escaped (pre post : list byte) :
  EncodeRune RuneError = [xef; xbf; xbd]
  /\ DecodeRune (EncodeRune RuneError ++ post) = (RuneError, 3%nat)
  /\ encode (pre ++ EncodeRune RuneError ++ post)
     = encode pre ++ str "\xef\xbf\xbd" ++ encode post.
Proof.
  split; [reflexivity|]. split.
  - change (EncodeRune RuneError) with [xef; xbf; xbd]. cbn [app].
    exact (decoded_DecodeRune _ _ _
             (decoded3 xef xbf xbd post _ eq_refl eq_refl eq_refl)).
  - change (EncodeRune RuneError) with [xef; xbf; xbd].
    change ([xef; xbf; xbd] ++ post) with (xef :: ([xbf; xbd] ++ post)).
    rewrite (encode_sync pre xef _ eq_refl).
    change (xef :: ([xbf; xbd] ++ post)) with ([xef; xbf; xbd] ++ post).
    now rewrite encode_replacement.
Qed.

(** X11. The bytes that occur in no UTF-8 encoding, 0xC0, 0xC1 and 0xF5
    to 0xFF, are written as a hex escape wherever they stand in the
    input, whatever precedes and follows them. *)
Theorem X11_never_utf8_bytes_escaped (pre post : list byte) (b : byte) :
  b2z b = 0xC0 \/ b2z b = 0xC1 \/ 0xF5 <= b2z b ->
  encode (pre ++ b :: post) = encode pre ++ hex_escape b ++ encode post.
Proof.
  intros Hb.
  assert (Hfacts : is_cont b = false /\ special b = false
                   /\ lead b = None /\ first b = xx).
  { destruct b; try (repeat split; reflexivity);
      exfalso; destruct Hb as [Hb|[Hb|Hb]];
      try discriminate Hb; vm_compute in Hb; apply Hb; reflexivity. }
  destruct Hfacts as (Hc & Hs & Hl & Hf).
  rewrite (encode_sync pre b post Hc). f_equal.
  rewrite encode_cons, (chunk_default _ _ Hs), DecodeRune_cons, Hl, Hf.
  reflexivity.
Qed.

Lemma X11_never_utf8_bytes_escaped_witness :
  encode (str "a" ++ xff :: str "b")
  = encode (str "a") ++ hex_escape xff ++ encode (str "b").
Proof.
  apply X11_never_utf8_bytes_escaped. right; right. vm_compute. discriminate.
Defined.

(** ** The generator on any standard output *)







(** X8. Without the gzip flag the generated file is the package clause
    and one declaration whose literal is the encoding of the input
    itself; the compressor has no part in it. *)
Theorem X8_plain_layout (gz : Z -> list byte -> list byte)
        (flags : Flags) (raw : list byte) :
  gzipFlag flags = false ->
  generate gz flags raw
  = package_clause (packageFlag flags)
    ++ var_literal (varFlag flags) (encode raw).
Proof.
  intros Hg. rewrite generate_output. unfold output. now rewrite Hg.
Qed.

Lemma X8_plain_layout_witness :
  generate (fun _ b => b)
           {| packageFlag := str "p"; varFlag := str "v"; gzipFlag := false |}
           [x61; x0a]
  = package_clause (str "p") ++ var_literal (str "v") (encode [x61; x0a]).
Proof. apply X8_plain_layout. reflexivity. Defined.
